(** * TrueTicket remote deployment script: the command sequencer

    A shallow embedding of [scripts/remote-deploy.py] ([run_command] and
    [main]) and the properties of its command sequencer.

    The script talks to two outside parties: the invoker's standard output
    (through [print]) and the remote host (through the paramiko client).
    Both are modelled by an [environment] that fixes, for one run of the
    program, what each call answers; the program is a function from that
    environment to the trace of its interactions and its exit code. *)

From Stdlib Require Import List ZArith NArith Bool Arith Lia.
From Stdlib Require Import Ascii String.
From Stdlib Require DecimalZ.
Import ListNotations.

Local Open Scope list_scope.

(** ** Text *)

(** A Python [str] is a sequence of Unicode code points. *)
Definition codepoint := N.
Definition str := list codepoint.

(** The code points of a literal of the source (written in ASCII). *)
Definition lit (s : string) : str :=
  map N_of_ascii (list_ascii_of_string s).

Definition newline : codepoint := 10%N.

(** [not line] / [if err:] : a [str] is falsy exactly when it is empty. *)
Definition is_empty (s : str) : bool :=
  match s with
  | [] => true
  | _ :: _ => false
  end.

(** [s.startswith(p)] *)
Fixpoint starts_with (p s : str) : bool :=
  match p, s with
  | [], _ => true
  | _ :: _, [] => false
  | a :: p', b :: s' => N.eqb a b && starts_with p' s'
  end.

(** [p in s] for two [str]: [p] occurs in [s] as a contiguous substring. *)
Fixpoint contains (p s : str) : bool :=
  starts_with p s ||
  match s with
  | [] => false
  | _ :: s' => contains p s'
  end.

(** [s * n] *)
Fixpoint str_repeat (s : str) (n : nat) : str :=
  match n with
  | O => []
  | S n' => s ++ str_repeat s n'
  end.

(** [line.encode('ascii', 'replace').decode()] : every code point outside
    ASCII becomes a question mark. *)
Definition question_mark : codepoint := 63%N.

Definition ascii_replace (s : str) : str :=
  map (fun c => if N.ltb c 128 then c else question_mark) s.

(** The decimal text of an [int], as an f-string formats it. *)
Fixpoint str_of_uint (d : Decimal.uint) : str :=
  match d with
  | Decimal.Nil => []
  | Decimal.D0 d' => 48%N :: str_of_uint d'
  | Decimal.D1 d' => 49%N :: str_of_uint d'
  | Decimal.D2 d' => 50%N :: str_of_uint d'
  | Decimal.D3 d' => 51%N :: str_of_uint d'
  | Decimal.D4 d' => 52%N :: str_of_uint d'
  | Decimal.D5 d' => 53%N :: str_of_uint d'
  | Decimal.D6 d' => 54%N :: str_of_uint d'
  | Decimal.D7 d' => 55%N :: str_of_uint d'
  | Decimal.D8 d' => 56%N :: str_of_uint d'
  | Decimal.D9 d' => 57%N :: str_of_uint d'
  end.

Definition minus_sign : codepoint := 45%N.

Definition str_of_int (z : Z) : str :=
  match Z.to_int z with
  | Decimal.Pos d => str_of_uint d
  | Decimal.Neg d => minus_sign :: str_of_uint d
  end.

(** ** The outside world *)

(** What a call into the transport library answers: a value, or an
    exception (an instance of [Exception]: [SSHException],
    [socket.timeout], [EOFError], ...) with its message. Asynchronous
    interruption of the process is outside the model. *)
Inductive reply (A : Type) : Type :=
| Gives (a : A)
| Fails (msg : str).
Arguments Gives {A} a.
Arguments Fails {A} msg.

(** The three handles [exec_command] returns, by what they will answer:
    - [stdout_reads]: the successive answers of [stdout.readline()]; once
      the list is used up [readline] returns the empty string (end of
      stream);
    - [stderr_text]: the answer of
      [stderr.read().decode('utf-8', errors='replace')] (the decoding
      itself cannot fail);
    - [exit_status]: the answer of [stdout.channel.recv_exit_status()]. *)
Record channel := {
  stdout_reads : list (reply str);
  stderr_text : reply str;
  exit_status : reply Z
}.

(** One run's environment.
    - [stdout_encodes c]: whether the encoding of [sys.stdout] can
      represent the non-ASCII code point [c]. The encoding is taken to be
      an ASCII superset (UTF-8, Latin-1, cp1252, plain ASCII, ...), which
      is what the script's own fallback to ['ascii'] relies on.
    - [codec_message s]: the message of the [UnicodeEncodeError] raised
      for the text [s].
    - [connect_reply]: the answer of [ssh.connect].
    - [exec_reply n command]: the answer of the [n]-th call (from 0) of
      [ssh.exec_command], made with [command]. *)
Record environment := {
  stdout_encodes : codepoint -> bool;
  codec_message : str -> str;
  connect_reply : reply unit;
  exec_reply : nat -> str -> reply channel
}.

Definition encodable (env : environment) (c : codepoint) : bool :=
  N.ltb c 128 || stdout_encodes env c.

Definition printable (env : environment) (s : str) : bool :=
  forallb (encodable env) s.

(** ** Exceptions and interactions *)

Inductive exn : Type :=
| UnicodeEncodeError (text : str)
| OtherException (msg : str)
| SystemExit (code : Z).

(** Every interaction of the program with the outside, with its answer. *)
Inductive event : Type :=
| Print (text : str)
| Connect (host user : str) (timeout : Z) (r : reply unit)
| ExecCommand (command : str) (timeout : Z) (started : bool)
| Readline (r : reply str)
| StderrRead (r : reply str)
| RecvExitStatus (r : reply Z)
| Close.

Inductive result (A : Type) : Type :=
| Return (a : A)
| Raise (e : exn).
Arguments Return {A} a.
Arguments Raise {A} e.

(** Modelled from the spec: the transport session handle (paramiko's
    [SSHClient], which is not part of this repository). Section 4.1 gives
    its contract: [connect] yields a usable session, [close] releases the
    connection and may be called in any state. *)
Inductive session_state : Type :=
| Unconnected
| Connected
| Closed.

Definition session_close (s : session_state) : session_state := Closed.

Record world := {
  session : session_state;
  exec_calls : nat
}.

Definition initial_world : world :=
  {| session := Unconnected; exec_calls := 0 |}.

(** ** A monad for the script: interactions logged, exceptions threaded *)

Definition M (A : Type) : Type := world -> list event * world * result A.

Definition ret {A} (a : A) : M A := fun w => ([], w, Return a).

Definition raise {A} (e : exn) : M A := fun w => ([], w, Raise e).

Definition bind {A B} (m : M A) (f : A -> M B) : M B :=
  fun w =>
    match m w with
    | (t1, w1, Return a) =>
        match f a w1 with
        | (t2, w2, r) => (t1 ++ t2, w2, r)
        end
    | (t1, w1, Raise e) => (t1, w1, Raise e)
    end.

Declare Scope script_scope.
Delimit Scope script_scope with script.
Notation "x <- m ;; k" := (bind m (fun x => k))
  (at level 100, m at next level, right associativity) : script_scope.
Notation "m ;; k" := (bind m (fun _ => k))
  (at level 100, right associativity) : script_scope.
Local Open Scope script_scope.

(** [try: m except <classes>: h] *)
Definition try_except {A} (m : M A) (caught : exn -> bool) (h : exn -> M A)
  : M A :=
  fun w =>
    match m w with
    | (t1, w1, Return a) => (t1, w1, Return a)
    | (t1, w1, Raise e) =>
        if caught e then
          match h e w1 with
          | (t2, w2, r) => (t1 ++ t2, w2, r)
          end
        else (t1, w1, Raise e)
    end.

(** [try: m finally: f] *)
Definition try_finally {A} (m : M A) (f : M unit) : M A :=
  fun w =>
    match m w with
    | (t1, w1, r) =>
        match f w1 with
        | (t2, w2, Return _) => (t1 ++ t2, w2, r)
        | (t2, w2, Raise e) => (t1 ++ t2, w2, Raise e)
        end
    end.

(** [for x in xs: body] *)
Fixpoint for_each {A} (xs : list A) (body : A -> M unit) : M unit :=
  match xs with
  | [] => ret tt
  | x :: rest => body x ;; for_each rest body
  end.

(** The handlers of the source. *)
Definition except_UnicodeEncodeError (e : exn) : bool :=
  match e with
  | UnicodeEncodeError _ => true
  | _ => false
  end.

Definition except_bare (e : exn) : bool := true.

Definition except_Exception (e : exn) : bool :=
  match e with
  | SystemExit _ => false
  | _ => true
  end.

(** ** Primitive operations *)

Section Script.

Variable env : environment.

(** [sys.stdout.write(text)]: the text reaches the invoker whole, or the
    encoder rejects it and nothing is written. *)
Definition write (text : str) : M unit :=
  fun w =>
    if printable env text
    then ([Print text], w, Return tt)
    else ([], w, Raise (UnicodeEncodeError text)).

(** [print(text)] and [print(text, end='')] *)
Definition print (text : str) : M unit := write (text ++ [newline]).
Definition print_noend (text : str) : M unit := write text.

(** [str(e)] *)
Definition exn_str (e : exn) : str :=
  match e with
  | UnicodeEncodeError text => codec_message env text
  | OtherException msg => msg
  | SystemExit code => str_of_int code
  end.

(** [ssh.connect(host, username=user, password=..., timeout=timeout)] *)
Definition connect (host user : str) (timeout : Z) : M unit :=
  fun w =>
    match connect_reply env with
    | Gives _ =>
        ([Connect host user timeout (Gives tt)],
         {| session := Connected; exec_calls := exec_calls w |},
         Return tt)
    | Fails msg =>
        ([Connect host user timeout (Fails msg)], w,
         Raise (OtherException msg))
    end.

(** [ssh.exec_command(command, timeout=timeout)] *)
Definition exec_command (command : str) (timeout : Z) : M channel :=
  fun w =>
    let w' := {| session := session w; exec_calls := S (exec_calls w) |} in
    match exec_reply env (exec_calls w) command with
    | Gives ch => ([ExecCommand command timeout true], w', Return ch)
    | Fails msg =>
        ([ExecCommand command timeout false], w', Raise (OtherException msg))
    end.

(** One answer of the transport, logged by [log]. *)
Definition ask {A} (log : reply A -> event) (r : reply A) : M A :=
  fun w =>
    match r with
    | Gives a => ([log r], w, Return a)
    | Fails msg => ([log r], w, Raise (OtherException msg))
    end.

(** [stderr.read().decode('utf-8', errors='replace')] *)
Definition stderr_read (ch : channel) : M str :=
  ask StderrRead (stderr_text ch).

(** [stdout.channel.recv_exit_status()] *)
Definition recv_exit_status (ch : channel) : M Z :=
  ask RecvExitStatus (exit_status ch).

(** [ssh.close()] *)
Definition close : M unit :=
  fun w =>
    ([Close],
     {| session := session_close (session w); exec_calls := exec_calls w |},
     Return tt).

(** [sys.exit(code)] *)
Definition sys_exit {A} (code : Z) : M A := raise (SystemExit code).

(** ** run_command *)

(** Lines 26-29: print one line of remote output, falling back to its
    ASCII rendering when the encoder rejects it. *)
Definition print_line (line : str) : M unit :=
  try_except (print_noend line)
    except_UnicodeEncodeError
    (fun _ => print_noend (ascii_replace line)).

(** Lines 22-29: the [while True] loop over [stdout.readline()]. Each
    iteration takes the next answer of [readline]; the loop ends at the
    first empty string. *)
Fixpoint stream_stdout (reads : list (reply str)) : M unit :=
  match reads with
  | [] => ask Readline (Gives []) ;; ret tt
  | r :: rest =>
      line <- ask Readline r ;;
      if is_empty line then ret tt
      else print_line line ;; stream_stdout rest
  end.

(** Lines 32-37 *)
Definition report_stderr (ch : channel) : M unit :=
  try_except
    (err <- stderr_read ch ;;
     if is_empty err then ret tt
     else print (lit "STDERR: " ++ err))
    except_bare
    (fun _ => ret tt).

Definition announcement (command : str) : str :=
  [newline] ++ lit ">>> " ++ command.

Definition run_command (command : str) (timeout : Z) : M Z :=
  print (announcement command) ;;
  ch <- exec_command command timeout ;;
  stream_stdout (stdout_reads ch) ;;
  report_stderr ch ;;
  recv_exit_status ch.

(** ** main *)

(** Lines 12-13. The password of line 14 is passed to [connect] and to
    nothing else; it is left out of the model. *)
Definition HOST : str := lit "66.135.29.248".
Definition USER : str := lit "root".

Definition default_timeout : Z := 300.

Definition warning (status : Z) : str :=
  [newline] ++ lit "Warning: Command exited with status " ++ str_of_int status.

(** Lines 90-92: the body of the loop over the command list. *)
Definition step (cmd : str) : M unit :=
  status <- run_command cmd default_timeout ;;
  if negb (Z.eqb status 0) && negb (contains (lit "curl") cmd)
  then print (warning status)
  else ret tt.

Definition banner : str := str_repeat (lit "=") 50.

(** Lines 42-106, with the command list as a parameter. Creating the
    client object and choosing its host-key policy (lines 48-49) involve
    no interaction. *)
Definition main_with (commands : list str) : M unit :=
  print banner ;;
  print (lit "TrueTicket Remote Deployment") ;;
  print banner ;;
  print ([newline] ++ lit "Connecting to " ++ HOST ++ lit "...") ;;
  try_finally
    (try_except
       (connect HOST USER 30 ;;
        print (lit "Connected successfully!" ++ [newline]) ;;
        for_each commands step ;;
        print ([newline] ++ banner) ;;
        print (lit "Deployment Complete!") ;;
        print banner ;;
        print ([newline] ++ lit "Your site should be accessible at:") ;;
        print (lit "  https://trueticket.me") ;;
        print (lit "  https://www.trueticket.me") ;;
        print ([newline] ++
               lit "Note: SSL certificate provisioning may take a few minutes."))
       except_Exception
       (fun e =>
          print (lit "Error: " ++ exn_str e) ;;
          sys_exit 1))
    close.

End Script.

(** The command list of the source (lines 56-87). *)
Definition env_file_command : str :=
  lit "cat > /opt/trueticket/.env << 'ENVEOF'" ++ [newline] ++
  lit "NODE_ENV=production" ++ [newline] ++
  lit "DATABASE_URL=file:/app/data/prod.db" ++ [newline] ++
  lit "JWT_SECRET=test-secret-change-in-production-$(openssl rand -hex 16)"
    ++ [newline] ++
  lit "BLOCKCHAIN_NETWORK=polygon" ++ [newline] ++
  lit "NEXT_PUBLIC_STRIPE_PUBLISHABLE_KEY=pk_test_placeholder" ++ [newline] ++
  lit "ENVEOF".

Definition commands : list str :=
  [ lit "docker system prune -af --volumes || true";
    lit "cd /opt/trueticket && git pull origin main";
    lit "mkdir -p /opt/trueticket/data";
    env_file_command;
    lit "cd /opt/trueticket && docker-compose build --no-cache";
    lit "cd /opt/trueticket && docker-compose up -d";
    lit "sleep 15";
    lit "docker ps";
    lit "curl -s http://localhost:3000/api/health || echo 'Health check pending...'" ].

Definition main (env : environment) : M unit := main_with env commands.

(** ** The process *)

(** The exit code of the interpreter for what [main()] ends with: 0 when
    it returns, the code of a [SystemExit], 1 for an uncaught exception. *)
Definition process_exit_code (r : result unit) : Z :=
  match r with
  | Return _ => 0
  | Raise (SystemExit code) => code
  | Raise _ => 1
  end.

Record run_report := {
  trace : list event;
  final_world : world;
  exit_code : Z
}.

Definition run (env : environment) (cmds : list str) : run_report :=
  match main_with env cmds initial_world with
  | (t, w, r) => {| trace := t; final_world := w; exit_code := process_exit_code r |}
  end.

(** ** Reading a trace *)

(** The text written to the progress channel, one item per write. *)
Fixpoint printed (t : list event) : list str :=
  match t with
  | [] => []
  | Print text :: t' => text :: printed t'
  | _ :: t' => printed t'
  end.

(** The commands passed to [exec_command], in call order. *)
Fixpoint executed (t : list event) : list str :=
  match t with
  | [] => []
  | ExecCommand c _ _ :: t' => c :: executed t'
  | _ :: t' => executed t'
  end.

(** The interactions with the transport session, in order. *)
Definition is_transport (e : event) : bool :=
  match e with
  | Print _ => false
  | _ => true
  end.

Definition transport (t : list event) : list event := filter is_transport t.

Definition count_close (t : list event) : nat :=
  List.length (filter (fun e => match e with Close => true | _ => false end) t).

(** ** What the environment makes of one command *)

(** The first failure [stream_stdout] meets: a failing [readline] before
    the end of the stream. *)
Fixpoint stdout_failure (reads : list (reply str)) : option str :=
  match reads with
  | [] => None
  | Fails msg :: _ => Some msg
  | Gives line :: rest =>
      if is_empty line then None else stdout_failure rest
  end.

(** The lines [readline] hands over before the end of the stream or its
    first failure. *)
Fixpoint stdout_lines (reads : list (reply str)) : list str :=
  match reads with
  | [] => []
  | Fails _ :: _ => []
  | Gives line :: rest =>
      if is_empty line then [] else line :: stdout_lines rest
  end.

(** How one line of remote output reaches the invoker. *)
Definition rendered (env : environment) (line : str) : str :=
  if printable env line then line else ascii_replace line.

(** The interactions of the streaming loop. *)
Fixpoint stdout_events (env : environment) (reads : list (reply str))
  : list event :=
  match reads with
  | [] => [Readline (Gives [])]
  | Fails msg :: _ => [Readline (Fails msg)]
  | Gives line :: rest =>
      if is_empty line then [Readline (Gives [])]
      else Readline (Gives line) :: Print (rendered env line)
             :: stdout_events env rest
  end.

Definition stderr_block (err : str) : str :=
  lit "STDERR: " ++ err ++ [newline].

(** The interactions of lines 32-37. *)
Definition stderr_events (env : environment) (ch : channel) : list event :=
  StderrRead (stderr_text ch) ::
  match stderr_text ch with
  | Gives err =>
      if is_empty err then []
      else if printable env (stderr_block err) then [Print (stderr_block err)]
      else []
  | Fails _ => []
  end.

(** The transport failure that ends the invocation of a command, if any:
    [exec_command] raising, [readline] raising while the output is
    streamed, or [recv_exit_status] raising. A failure of the read of the
    error stream is not among them. *)
Definition invocation_failure (env : environment) (n : nat) (cmd : str)
  : option str :=
  match exec_reply env n cmd with
  | Fails msg => Some msg
  | Gives ch =>
      match stdout_failure (stdout_reads ch) with
      | Some msg => Some msg
      | None =>
          match exit_status ch with
          | Fails msg => Some msg
          | Gives _ => None
          end
      end
  end.

Definition announced (cmd : str) : str := announcement cmd ++ [newline].

(** The [n]-th invocation, of [cmd], runs to its exit status. *)
Definition command_completes (env : environment) (n : nat) (cmd : str)
  : bool :=
  printable env (announced cmd) &&
  match invocation_failure env n cmd with
  | None => true
  | Some _ => false
  end.

(** Every command of the list, invoked from call number [n] on, runs to
    its exit status. *)
Fixpoint all_complete (env : environment) (n : nat) (cmds : list str)
  : bool :=
  match cmds with
  | [] => true
  | cmd :: rest => command_completes env n cmd && all_complete env (S n) rest
  end.

Definition warning_line (status : Z) : str := warning status ++ [newline].

(** The designated diagnostic command, as line 91 recognises it. *)
Definition is_diagnostic (cmd : str) : bool := contains (lit "curl") cmd.

(** What line 91-92 adds to the trace for a command that exited with
    [status]. *)
Definition warning_events (cmd : str) (status : Z) : list event :=
  if negb (Z.eqb status 0) && negb (is_diagnostic cmd)
  then [Print (warning_line status)]
  else [].

Definition bump (w : world) : world :=
  {| session := session w; exec_calls := S (exec_calls w) |}.

(** ** Reading runs *)

(** Text made of ASCII code points only. *)
Definition all_ascii (s : str) : bool := forallb (fun c => N.ltb c 128) s.


(** The last three interactions in [t] are: [readline] returning the
    empty string, the read of the error stream (answered or failed), and
    the exit status. *)
Definition drained_before (t : list event) : Prop :=
  exists t0 r status,
    t = t0 ++ [Readline (Gives []); StderrRead r; RecvExitStatus (Gives status)].

(** The same, with the error stream read to its end. *)
Definition fully_drained_before (t : list event) : Prop :=
  exists t0 err status,
    t = t0 ++ [Readline (Gives []); StderrRead (Gives err);
               RecvExitStatus (Gives status)].

(** The claim, read to the letter: on every run [exec_command] is called
    once per command of the list, in list order, and each call after the
    first comes right after the previous command's output stream was read
    to its end, its error stream was read to its end, and its exit status
    was obtained. *)
Definition strictly_sequenced (env : environment) (cmds : list str) : Prop :=
  executed (trace (run env cmds)) = cmds /\
  forall t1 c to b t2,
    transport (trace (run env cmds)) = t1 ++ ExecCommand c to b :: t2 ->
    executed t1 <> [] ->
    fully_drained_before t1.

(** What [main] writes before it connects (lines 42-45). *)
Definition preamble : list event :=
  [ Print (banner ++ [newline]);
    Print (lit "TrueTicket Remote Deployment" ++ [newline]);
    Print (banner ++ [newline]);
    Print (([newline] ++ lit "Connecting to " ++ HOST ++ lit "...")
           ++ [newline]) ].

Definition connected_line : str :=
  (lit "Connected successfully!" ++ [newline]) ++ [newline].

(** What [main] writes after the loop (lines 94-100). *)
Definition epilogue : list event :=
  [ Print (([newline] ++ banner) ++ [newline]);
    Print (lit "Deployment Complete!" ++ [newline]);
    Print (banner ++ [newline]);
    Print (([newline] ++ lit "Your site should be accessible at:")
           ++ [newline]);
    Print (lit "  https://trueticket.me" ++ [newline]);
    Print (lit "  https://www.trueticket.me" ++ [newline]);
    Print (([newline] ++
            lit "Note: SSL certificate provisioning may take a few minutes.")
           ++ [newline]) ].

(** The line of the handler (line 103) for the exception [e]. *)
Definition error_line (env : environment) (e : exn) : str :=
  (lit "Error: " ++ exn_str env e) ++ [newline].

(** What the handler (lines 102-104) adds to the trace, and what it ends
    with. *)
Definition handler_events (env : environment) (e : exn) : list event :=
  if printable env (error_line env e) then [Print (error_line env e)] else [].

Definition handler_result (env : environment) (e : exn) : result unit :=
  if printable env (error_line env e)
  then Raise (SystemExit 1)
  else Raise (UnicodeEncodeError (error_line env e)).

Definition connected (w : world) : world :=
  {| session := Connected; exec_calls := exec_calls w |}.

Definition closed (w : world) : world :=
  {| session := session_close (session w); exec_calls := exec_calls w |}.

(** * Scenarios *)

(** An invoker whose standard output is plain ASCII. *)
Definition ascii_only (c : codepoint) : bool := false.

Definition codec_says (s : str) : str :=
  lit "'ascii' codec can't encode characters".

(** A command that prints nothing and exits with [status]. *)
Definition silent (status : Z) : channel :=
  {| stdout_reads := []; stderr_text := Gives []; exit_status := Gives status |}.

(** Every command is silent and succeeds. *)
Definition calm_env : environment :=
  {| stdout_encodes := ascii_only;
     codec_message := codec_says;
     connect_reply := Gives tt;
     exec_reply := fun _ _ => Gives (silent 0) |}.

(** [connect] times out. *)
Definition unreachable_env : environment :=
  {| stdout_encodes := ascii_only;
     codec_message := codec_says;
     connect_reply := Fails (lit "timed out");
     exec_reply := fun _ _ => Gives (silent 0) |}.

(** The scenario of section 8: [true], then [false] exiting 1, then the
    health probe exiting 1. *)
Definition probe : str := lit "curl -s http://localhost:3000/api/health".

Definition scenario_cmds : list str := [lit "true"; lit "false"; probe].

Definition scenario_env : environment :=
  {| stdout_encodes := ascii_only;
     codec_message := codec_says;
     connect_reply := Gives tt;
     exec_reply := fun n _ =>
       match n with
       | 0 => Gives (silent 0)
       | _ => Gives (silent 1)
       end |}.

(** The second invocation cannot be started. *)
Definition dropped_env : environment :=
  {| stdout_encodes := ascii_only;
     codec_message := codec_says;
     connect_reply := Gives tt;
     exec_reply := fun n _ =>
       match n with
       | 1 => Fails (lit "SSH session not active")
       | _ => Gives (silent 0)
       end |}.

(** The read of the first command's error stream fails; the second
    invocation cannot be started. *)
Definition stderr_fault : channel :=
  {| stdout_reads := [];
     stderr_text := Fails (lit "timed out");
     exit_status := Gives 0%Z |}.

Definition faulty_env : environment :=
  {| stdout_encodes := ascii_only;
     codec_message := codec_says;
     connect_reply := Gives tt;
     exec_reply := fun n _ =>
       match n with
       | 0 => Gives stderr_fault
       | 1 => Fails (lit "SSH session not active")
       | _ => Gives (silent 0)
       end |}.

Definition three_cmds : list str := [lit "first"; lit "second"; lit "third"].

(** A line of remote output with a snowman in it, and a failing status. *)
Definition snowy_line : str := lit "snow " ++ [9731%N; newline].

Definition snowy : channel :=
  {| stdout_reads := [Gives snowy_line; Gives (lit "done" ++ [newline])];
     stderr_text := Gives (lit "caf" ++ [233%N]);
     exit_status := Gives 3%Z |}.

Definition snowy_env : environment :=
  {| stdout_encodes := ascii_only;
     codec_message := codec_says;
     connect_reply := Gives tt;
     exec_reply := fun _ _ => Gives snowy |}.

(** A command that prints one line and whose error stream cannot be
    read. *)
Definition deaf : channel :=
  {| stdout_reads := [Gives (lit "built" ++ [newline])];
     stderr_text := Fails (lit "timed out");
     exit_status := Gives 2%Z |}.

Definition deaf_env : environment :=
  {| stdout_encodes := ascii_only;
     codec_message := codec_says;
     connect_reply := Gives tt;
     exec_reply := fun _ _ => Gives deaf |}.

(** A command that only mentions curl. *)
Definition install_curl : str := lit "apt-get install -y curl".

(** ** What a run writes *)

(** The STDERR block of a command, as lines 33-35 write it. *)
Definition stderr_writes (env : environment) (ch : channel) : list str :=
  match stderr_text ch with
  | Gives err =>
      if is_empty err then []
      else if printable env (stderr_block err) then [stderr_block err]
      else []
  | Fails _ => []
  end.

Definition warning_writes (cmd : str) (status : Z) : list str :=
  if negb (Z.eqb status 0) && negb (is_diagnostic cmd)
  then [warning_line status]
  else [].

(** Everything the [n]-th invocation, of [cmd], makes the sequencer write
    when it runs to its exit status. *)
Definition command_writes (env : environment) (n : nat) (cmd : str)
  : list str :=
  match exec_reply env n cmd with
  | Gives ch =>
      announced cmd
        :: map (rendered env) (stdout_lines (stdout_reads ch))
        ++ stderr_writes env ch
        ++ match exit_status ch with
           | Gives status => warning_writes cmd status
           | Fails _ => []
           end
  | Fails _ => []
  end.

Fixpoint loop_writes (env : environment) (n : nat) (cmds : list str)
  : list str :=
  match cmds with
  | [] => []
  | cmd :: rest => command_writes env n cmd ++ loop_writes env (S n) rest
  end.

(** The interactions a command of [cmds] may give rise to: no [connect],
    no [close], and [exec_command] only with a command of the list and the
    default timeout. *)
Definition command_event (cmds : list str) (e : event) : Prop :=
  match e with
  | Connect _ _ _ _ => False
  | Close => False
  | ExecCommand c to _ => In c cmds /\ to = default_timeout
  | _ => True
  end.

(** [connect] fails with a message the invoker's encoding cannot
    represent. *)
Definition garbled_env : environment :=
  {| stdout_encodes := ascii_only;
     codec_message := codec_says;
     connect_reply := Fails (lit "Verbindung abgelehnt: Schl" ++ [252%N]);
     exec_reply := fun _ _ => Gives (silent 0) |}.

(** A command with a snowman in it. *)
Definition snowy_cmd : str := lit "echo " ++ [9731%N].

(** ** The report of a connection failure *)







(** An invoker whose standard output is Latin-1, and a line it can
    represent although it is not ASCII. *)
Definition latin1 (c : codepoint) : bool := N.ltb c 256.

Definition latin1_env : environment :=
  {| stdout_encodes := latin1;
     codec_message := codec_says;
     connect_reply := Gives tt;
     exec_reply := fun _ _ => Gives (silent 0) |}.

Definition cafe_line : str := lit "caf" ++ [233%N; newline].

(** * Properties *)

(** ** Text *)

Lemma all_ascii_app (s1 s2 : str) :
  all_ascii (s1 ++ s2) = all_ascii s1 && all_ascii s2.
Proof. apply forallb_app. Qed.

Lemma all_ascii_printable (env : environment) (s : str) :
  all_ascii s = true -> printable env s = true.
Proof.
  unfold all_ascii, printable, encodable.
  induction s as [|c s IH]; simpl; [reflexivity|].
  intros H. apply andb_true_iff in H. destruct H as [Hc Hs].
  rewrite Hc, (IH Hs). reflexivity.
Qed.

Lemma printable_app (env : environment) (s1 s2 : str) :
  printable env (s1 ++ s2) = printable env s1 && printable env s2.
Proof. apply forallb_app. Qed.

Lemma all_ascii_replace (s : str) : all_ascii (ascii_replace s) = true.
Proof.
  unfold all_ascii, ascii_replace.
  induction s as [|c s IH]; simpl; [reflexivity|].
  rewrite IH, andb_true_r.
  destruct (N.ltb c 128) eqn:E; [exact E | reflexivity].
Qed.

Lemma all_ascii_uint (d : Decimal.uint) : all_ascii (str_of_uint d) = true.
Proof. induction d; simpl; auto. Qed.

Lemma all_ascii_int (z : Z) : all_ascii (str_of_int z) = true.
Proof.
  unfold str_of_int. destruct (Z.to_int z); simpl; apply all_ascii_uint.
Qed.

Lemma all_ascii_warning (status : Z) : all_ascii (warning_line status) = true.
Proof.
  unfold warning_line, warning.
  rewrite !all_ascii_app, all_ascii_int. reflexivity.
Qed.

Lemma starts_with_prefix (p s : str) :
  starts_with p s = true <-> exists b, s = p ++ b.
Proof.
  revert s. induction p as [|a p IH]; intros s; simpl.
  - split; [intros _; exists s; reflexivity | reflexivity].
  - destruct s as [|c s].
    + split; [discriminate | intros [b Hb]; discriminate].
    + rewrite andb_true_iff, N.eqb_eq, IH. split.
      * intros [-> [b ->]]. exists b. reflexivity.
      * intros [b Hb]. injection Hb as -> ->. split; [reflexivity|].
        exists b. reflexivity.
Qed.

(** [contains p s] is Python's substring test: [p] occurs somewhere in
    [s]. *)
Lemma contains_substring (p s : str) :
  contains p s = true <-> exists a b, s = a ++ p ++ b.
Proof.
  induction s as [|c s IH].
  - simpl. rewrite orb_false_r, starts_with_prefix. split.
    + intros [b Hb]. exists [], b. exact Hb.
    + intros [a [b Hab]]. destruct a as [|x a]; [|discriminate].
      exists b. exact Hab.
  - cbn [contains]. rewrite orb_true_iff, starts_with_prefix, IH. split.
    + intros [[b Hb] | [a [b Hab]]].
      * exists [], b. exact Hb.
      * exists (c :: a), b. rewrite Hab. reflexivity.
    + intros [a [b Hab]]. destruct a as [|x a].
      * left. exists b. exact Hab.
      * right. injection Hab as -> ->. exists a, b. reflexivity.
Qed.

(** The warning line carries the decimal exit status. *)
Lemma warning_shows_status (status : Z) :
  contains (str_of_int status) (warning_line status) = true.
Proof.
  apply contains_substring.
  exists ([newline] ++ lit "Warning: Command exited with status "), [newline].
  unfold warning_line, warning. rewrite <- !app_assoc. reflexivity.
Qed.

(** ** The primitive operations, computed *)

Section Operations.

Variable env : environment.

Lemma write_printable (text : str) (w : world) :
  printable env text = true ->
  write env text w = ([Print text], w, Return tt).
Proof. intros H. unfold write. rewrite H. reflexivity. Qed.

Lemma write_unprintable (text : str) (w : world) :
  printable env text = false ->
  write env text w = ([], w, Raise (UnicodeEncodeError text)).
Proof. intros H. unfold write. rewrite H. reflexivity. Qed.

Lemma print_ascii (text : str) (w : world) :
  all_ascii text = true ->
  print env text w = ([Print (text ++ [newline])], w, Return tt).
Proof.
  intros H. unfold print. apply write_printable, all_ascii_printable.
  rewrite all_ascii_app, H. reflexivity.
Qed.

(** Lines 26-29 always write one text and never raise. *)
Lemma print_line_eq (line : str) (w : world) :
  print_line env line w = ([Print (rendered env line)], w, Return tt).
Proof.
  unfold print_line, try_except, print_noend, rendered.
  destruct (printable env line) eqn:E.
  - rewrite (write_printable _ _ E). reflexivity.
  - rewrite (write_unprintable _ _ E). simpl.
    rewrite write_printable
      by (apply all_ascii_printable, all_ascii_replace).
    reflexivity.
Qed.

Lemma stream_stdout_eq (reads : list (reply str)) (w : world) :
  stream_stdout env reads w =
  (stdout_events env reads, w,
   match stdout_failure reads with
   | None => Return tt
   | Some msg => Raise (OtherException msg)
   end).
Proof.
  induction reads as [|r rest IH]; [reflexivity|].
  destruct r as [line|msg]; [|reflexivity].
  destruct line as [|c line]; [reflexivity|].
  cbn [stream_stdout stdout_events stdout_failure is_empty].
  unfold bind at 1. cbn [ask is_empty].
  unfold bind. rewrite print_line_eq, IH.
  destruct (stdout_failure rest); reflexivity.
Qed.

(** Lines 32-37 never raise, whatever the read of the error stream and
    the printing of its text do. *)
Lemma report_stderr_eq (ch : channel) (w : world) :
  report_stderr env ch w = (stderr_events env ch, w, Return tt).
Proof.
  unfold report_stderr, try_except, bind, stderr_read, ask, stderr_events.
  destruct (stderr_text ch) as [err|msg]; [|reflexivity].
  destruct err as [|c err]; [reflexivity|].
  cbn [is_empty]. unfold print, write, stderr_block.
  rewrite <- app_assoc.
  destruct (printable env _); reflexivity.
Qed.

(** [run_command], case by case. *)
Lemma run_command_eq (cmd : str) (timeout : Z) (w : world) :
  run_command env cmd timeout w =
  if printable env (announced cmd) then
    match exec_reply env (exec_calls w) cmd with
    | Fails msg =>
        ([Print (announced cmd); ExecCommand cmd timeout false], bump w,
         Raise (OtherException msg))
    | Gives ch =>
        match stdout_failure (stdout_reads ch) with
        | Some msg =>
            (Print (announced cmd) :: ExecCommand cmd timeout true
               :: stdout_events env (stdout_reads ch),
             bump w, Raise (OtherException msg))
        | None =>
            (Print (announced cmd) :: ExecCommand cmd timeout true
               :: stdout_events env (stdout_reads ch)
               ++ stderr_events env ch ++ [RecvExitStatus (exit_status ch)],
             bump w,
             match exit_status ch with
             | Gives status => Return status
             | Fails msg => Raise (OtherException msg)
             end)
        end
    end
  else ([], w, Raise (UnicodeEncodeError (announced cmd))).
Proof.
  unfold run_command, announced. unfold bind at 1. unfold print, write.
  destruct (printable env _) eqn:Ea; [|reflexivity].
  unfold bind at 1. unfold exec_command, bump.
  destruct (exec_reply env (exec_calls w) cmd) as [ch|msg]; [|reflexivity].
  unfold bind at 1. rewrite stream_stdout_eq.
  destruct (stdout_failure (stdout_reads ch)) as [msg|].
  - reflexivity.
  - unfold bind. rewrite report_stderr_eq.
    unfold recv_exit_status, ask.
    destruct (exit_status ch) as [status|msg]; reflexivity.
Qed.

End Operations.

(** ** Reading traces *)

Lemma printed_app (t1 t2 : list event) :
  printed (t1 ++ t2) = printed t1 ++ printed t2.
Proof.
  induction t1 as [|e t1 IH]; [reflexivity|].
  destruct e; simpl; rewrite IH; reflexivity.
Qed.

Lemma executed_app (t1 t2 : list event) :
  executed (t1 ++ t2) = executed t1 ++ executed t2.
Proof.
  induction t1 as [|e t1 IH]; [reflexivity|].
  destruct e; simpl; rewrite IH; reflexivity.
Qed.

Lemma transport_app (t1 t2 : list event) :
  transport (t1 ++ t2) = transport t1 ++ transport t2.
Proof. apply filter_app. Qed.

Lemma count_close_app (t1 t2 : list event) :
  count_close (t1 ++ t2) = count_close t1 + count_close t2.
Proof. unfold count_close. rewrite filter_app. apply length_app. Qed.

Lemma executed_transport (t : list event) :
  executed (transport t) = executed t.
Proof.
  induction t as [|e t IH]; [reflexivity|].
  destruct e; simpl; rewrite ?IH; reflexivity.
Qed.

(** An [ExecCommand] found in [a ++ b] lies in [b] when [a] has none. *)
Lemma exec_after_quiet (a b t1 t2 : list event) (c : str) (to : Z)
      (started : bool) :
  a ++ b = t1 ++ ExecCommand c to started :: t2 ->
  executed a = [] ->
  exists t1', t1 = a ++ t1' /\ b = t1' ++ ExecCommand c to started :: t2.
Proof.
  revert t1. induction a as [|e a IH]; intros t1 Heq Hq.
  - exists t1. split; [reflexivity | exact Heq].
  - destruct t1 as [|e1 t1].
    + simpl in Heq. injection Heq as -> _. discriminate Hq.
    + simpl in Heq. injection Heq as -> Heq.
      assert (Hq' : executed a = []) by (destruct e1; simpl in Hq; congruence).
      destruct (IH t1 Heq Hq') as [t1' [-> Hb]].
      exists t1'. split; [reflexivity | exact Hb].
Qed.

Section Streams.

Variable env : environment.

Lemma stdout_events_executed (reads : list (reply str)) :
  executed (stdout_events env reads) = [].
Proof.
  induction reads as [|[line|msg] rest IH]; try reflexivity.
  destruct line; [reflexivity | exact IH].
Qed.

Lemma stdout_events_close (reads : list (reply str)) :
  count_close (stdout_events env reads) = 0.
Proof.
  induction reads as [|[line|msg] rest IH]; try reflexivity.
  destruct line; [reflexivity | exact IH].
Qed.

(** The writes of the streaming loop: the lines received, each as it is
    or in its ASCII rendering, in the order received. *)
Lemma stdout_events_printed (reads : list (reply str)) :
  printed (stdout_events env reads) = map (rendered env) (stdout_lines reads).
Proof.
  induction reads as [|[line|msg] rest IH]; try reflexivity.
  destruct line; [reflexivity|]. simpl. rewrite <- IH. reflexivity.
Qed.

(** When no [readline] fails, the loop ends on the empty string: the
    output stream has been read to its end. *)
Lemma stdout_events_drained (reads : list (reply str)) :
  stdout_failure reads = None ->
  exists t0, transport (stdout_events env reads) = t0 ++ [Readline (Gives [])].
Proof.
  induction reads as [|[line|msg] rest IH]; intros H.
  - exists []. reflexivity.
  - destruct line as [|c line].
    + exists []. reflexivity.
    + destruct (IH H) as [t0 Ht0].
      exists (Readline (Gives (c :: line)) :: t0).
      simpl in *. rewrite Ht0. reflexivity.
  - discriminate H.
Qed.

Lemma stderr_events_executed (ch : channel) :
  executed (stderr_events env ch) = [].
Proof.
  unfold stderr_events. destruct (stderr_text ch) as [err|msg]; [|reflexivity].
  destruct (is_empty err); [reflexivity|].
  destruct (printable env _); reflexivity.
Qed.

Lemma stderr_events_close (ch : channel) :
  count_close (stderr_events env ch) = 0.
Proof.
  unfold stderr_events. destruct (stderr_text ch) as [err|msg]; [|reflexivity].
  destruct (is_empty err); [reflexivity|].
  destruct (printable env _); reflexivity.
Qed.

Lemma stderr_events_transport (ch : channel) :
  transport (stderr_events env ch) = [StderrRead (stderr_text ch)].
Proof.
  unfold stderr_events. destruct (stderr_text ch) as [err|msg]; [|reflexivity].
  destruct (is_empty err); [reflexivity|].
  destruct (printable env _); reflexivity.
Qed.

Lemma warning_events_transport (cmd : str) (status : Z) :
  transport (warning_events cmd status) = [].
Proof. unfold warning_events. destruct (_ && _); reflexivity. Qed.

Lemma warning_events_executed (cmd : str) (status : Z) :
  executed (warning_events cmd status) = [].
Proof. unfold warning_events. destruct (_ && _); reflexivity. Qed.

Lemma warning_events_close (cmd : str) (status : Z) :
  count_close (warning_events cmd status) = 0.
Proof. unfold warning_events. destruct (_ && _); reflexivity. Qed.

(** Lines 90-92 in terms of [run_command]. *)
Lemma step_eq (cmd : str) (w : world) :
  step env cmd w =
  match run_command env cmd default_timeout w with
  | (t, w', Return status) => (t ++ warning_events cmd status, w', Return tt)
  | (t, w', Raise e) => (t, w', Raise e)
  end.
Proof.
  unfold step, bind.
  destruct (run_command env cmd default_timeout w) as [[t w'] [status|e]];
    [|reflexivity].
  unfold warning_events, is_diagnostic.
  destruct (negb (Z.eqb status 0) && negb (contains (lit "curl") cmd)).
  - unfold print. rewrite write_printable
      by (apply all_ascii_printable, all_ascii_warning).
    reflexivity.
  - unfold ret. rewrite app_nil_r. reflexivity.
Qed.

End Streams.

(** ** One command *)

Section Command.

Variable env : environment.

Lemma transport_print (text : str) (t : list event) :
  transport (Print text :: t) = transport t.
Proof. reflexivity. Qed.

Lemma transport_exec (c : str) (to : Z) (b : bool) (t : list event) :
  transport (ExecCommand c to b :: t) = ExecCommand c to b :: transport t.
Proof. reflexivity. Qed.

Lemma executed_print (text : str) (t : list event) :
  executed (Print text :: t) = executed t.
Proof. reflexivity. Qed.

Lemma executed_exec (c : str) (to : Z) (b : bool) (t : list event) :
  executed (ExecCommand c to b :: t) = c :: executed t.
Proof. reflexivity. Qed.

Lemma step_shape (cmd : str) (w w' : world) (t : list event)
      (r : result unit) :
  step env cmd w = (t, w', r) ->
  session w' = session w /\ count_close t = 0 /\
  match r with
  | Return _ =>
      command_completes env (exec_calls w) cmd = true /\
      w' = bump w /\ executed t = [cmd] /\
      exists t0 rr status,
        transport t =
        ExecCommand cmd default_timeout true :: t0 ++
          [Readline (Gives []); StderrRead rr; RecvExitStatus (Gives status)]
        /\ executed t0 = []
  | Raise e =>
      command_completes env (exec_calls w) cmd = false /\
      except_Exception e = true /\
      ((t = [] /\ w' = w) \/
       (exists b t0,
          transport t = ExecCommand cmd default_timeout b :: t0 /\
          executed t = [cmd] /\ executed t0 = [] /\ w' = bump w))
  end.
Proof.
  rewrite step_eq, run_command_eq.
  unfold command_completes, invocation_failure.
  remember (stderr_events env) as errs eqn:Herrs.
  destruct (printable env (announced cmd)) eqn:Ea.
  2:{ intros H. injection H as <- <- <-. repeat split. left. split; reflexivity. }
  destruct (exec_reply env (exec_calls w) cmd) as [ch|msg] eqn:Ex.
  2:{ intros H. injection H as <- <- <-. repeat split.
      right. exists false, []. repeat split. }
  destruct (stdout_failure (stdout_reads ch)) as [msg|] eqn:Eo.
  { intros H. injection H as <- <- <-.
    split; [reflexivity|]. split.
    { change (count_close (stdout_events env (stdout_reads ch)) = 0).
      apply stdout_events_close. }
    repeat split. right.
    exists true, (transport (stdout_events env (stdout_reads ch))).
    rewrite transport_print, transport_exec, executed_transport.
    rewrite executed_print, executed_exec, stdout_events_executed.
    repeat split. }
  destruct (stdout_events_drained env _ Eo) as [t0 Ht0].
  destruct (exit_status ch) as [status|msg] eqn:Es.
  - intros H. injection H as <- <- <-. subst errs.
    split; [reflexivity|]. split.
    { change (count_close
                ((stdout_events env (stdout_reads ch) ++ stderr_events env ch
                  ++ [RecvExitStatus (Gives status)])
                 ++ warning_events cmd status) = 0).
      rewrite !count_close_app, stdout_events_close, stderr_events_close,
        warning_events_close. reflexivity. }
    repeat split.
    + rewrite <- ?app_comm_cons, executed_print, executed_exec.
      rewrite !executed_app, stdout_events_executed, stderr_events_executed,
        warning_events_executed. reflexivity.
    + exists t0, (stderr_text ch), status. split.
      * rewrite <- ?app_comm_cons, transport_print, transport_exec.
        rewrite !transport_app, Ht0, stderr_events_transport,
          warning_events_transport, app_nil_r, <- app_assoc.
        reflexivity.
      * assert (H : executed (t0 ++ [Readline (Gives [])]) = []).
        { rewrite <- Ht0, executed_transport. apply stdout_events_executed. }
        rewrite executed_app, app_nil_r in H. exact H.
  - intros H. injection H as <- <- <-. subst errs.
    split; [reflexivity|]. split.
    { change (count_close
                (stdout_events env (stdout_reads ch) ++ stderr_events env ch
                  ++ [RecvExitStatus (Fails msg)]) = 0).
      rewrite !count_close_app, stdout_events_close, stderr_events_close.
      reflexivity. }
    repeat split. right.
    exists true,
      (transport (stdout_events env (stdout_reads ch) ++ stderr_events env ch
                  ++ [RecvExitStatus (Fails msg)])).
    rewrite transport_print, transport_exec, executed_transport.
    rewrite executed_print, executed_exec.
    rewrite !executed_app, stdout_events_executed, stderr_events_executed.
    repeat split.
Qed.

End Command.

(** ** The loop over the command list *)

Lemma for_each_app {A} (xs ys : list A) (body : A -> M unit) (w : world) :
  for_each (xs ++ ys) body w =
  bind (for_each xs body) (fun _ => for_each ys body) w.
Proof.
  revert w. induction xs as [|x xs IH]; intros w.
  - change ([] ++ ys) with ys. unfold bind. cbn [for_each ret].
    destruct (for_each ys body w) as [[t w'] r]. reflexivity.
  - change ((x :: xs) ++ ys) with (x :: (xs ++ ys)).
    cbn [for_each]. unfold bind.
    destruct (body x w) as [[t1 w1] [[]|e]]; [|reflexivity].
    rewrite IH. unfold bind.
    destruct (for_each xs body w1) as [[t2 w2] [[]|e]]; [|reflexivity].
    destruct (for_each ys body w2) as [[t3 w3] r].
    rewrite app_assoc. reflexivity.
Qed.

Section Loop.

Variable env : environment.

Lemma drained_before_app (a t : list event) :
  drained_before t -> drained_before (a ++ t).
Proof.
  intros [t0 [r [s ->]]]. exists (a ++ t0), r, s. apply app_assoc.
Qed.

(** The invariant of the loop: commands are started in list order, each
    one after the previous one is done. *)
Lemma loop_shape (cmds : list str) (w w' : world) (t : list event)
      (r : result unit) :
  for_each cmds (step env) w = (t, w', r) ->
  session w' = session w /\ count_close t = 0 /\
  (exists rest, cmds = executed t ++ rest) /\
  (forall t1 c to b t2,
      transport t = t1 ++ ExecCommand c to b :: t2 ->
      t1 = [] \/ drained_before t1) /\
  match r with
  | Return _ =>
      executed t = cmds /\
      all_complete env (exec_calls w) cmds = true /\
      exec_calls w' = exec_calls w + List.length cmds
  | Raise e =>
      all_complete env (exec_calls w) cmds = false /\
      except_Exception e = true
  end.
Proof.
  revert w w' t r. induction cmds as [|cmd cmds IH]; intros w w' t r.
  - cbn [for_each]. unfold ret. intros H. injection H as <- <- <-.
    split; [reflexivity|]. split; [reflexivity|].
    split; [exists []; reflexivity|]. split.
    + intros t1 c to b t2 H. destruct t1; discriminate H.
    + cbn. split; [reflexivity|]. split; [reflexivity|]. lia.
  - cbn [for_each]. unfold bind.
    destruct (step env cmd w) as [[ts ws] [[]|e]] eqn:Es.
    + destruct (step_shape env _ _ _ _ _ Es)
        as [Hs [Hc [Hcompl [Hw [Hex [t0 [rr [st [Ht Hq]]]]]]]]].
      destruct (for_each cmds (step env) ws) as [[tr wr] rl] eqn:El.
      destruct (IH _ _ _ _ El) as [Hs' [Hc' [[rest Hrest] [Hord Hres]]]].
      intros H. injection H as <- <- <-.
      split; [congruence|].
      split; [rewrite count_close_app, Hc, Hc'; reflexivity|].
      split.
      { exists rest. rewrite executed_app, Hex, Hrest at 1. reflexivity. }
      split.
      { intros t1 c to b t2. rewrite transport_app, Ht.
        destruct t1 as [|e1 t1]; [left; reflexivity|].
        cbn [app]. intros H. injection H as <- H. right.
        rewrite <- app_assoc in H.
        destruct (exec_after_quiet _ _ _ _ _ _ _ H Hq) as [t1' [-> H']].
        cbn [app] in H'.
        destruct t1' as [|e1 t1'].
        - discriminate H'.
        - injection H' as <- H'. destruct t1' as [|e2 t1']; [discriminate H'|].
          injection H' as <- H'. destruct t1' as [|e3 t1']; [discriminate H'|].
          injection H' as <- H'.
          destruct (Hord _ _ _ _ _ H') as [-> | Hd].
          + exists (ExecCommand cmd default_timeout true :: t0), rr, st.
            reflexivity.
          + apply (drained_before_app
                     (ExecCommand cmd default_timeout true :: t0 ++
                        [Readline (Gives []); StderrRead rr;
                         RecvExitStatus (Gives st)])) in Hd.
            rewrite <- app_comm_cons, <- app_assoc in Hd. exact Hd. }
      subst ws. cbn [all_complete]. rewrite Hcompl. cbn [andb].
      destruct rl as [[]|e].
      * destruct Hres as [He [Ha Hn]]. rewrite executed_app, Hex, He.
        split; [reflexivity|]. split; [exact Ha|].
        rewrite Hn. cbn [bump exec_calls List.length]. lia.
      * exact Hres.
    + destruct (step_shape env _ _ _ _ _ Es) as [Hs [Hc [Hcompl [Hexn Hcase]]]].
      intros H. injection H as <- <- <-.
      split; [exact Hs|]. split; [exact Hc|]. split.
      { destruct Hcase as [[-> _] | [b [t0 [_ [Hex _]]]]].
        - exists (cmd :: cmds). reflexivity.
        - exists cmds. rewrite Hex. reflexivity. }
      split.
      { intros t1 c to b t2 H.
        destruct Hcase as [[-> _] | [b' [t0 [Ht [_ [Hq _]]]]]].
        - destruct t1; discriminate H.
        - rewrite Ht in H. destruct t1 as [|e1 t1]; [left; reflexivity|].
          cbn [app] in H. injection H as <- H.
          rewrite <- (app_nil_r t0) in H.
          destruct (exec_after_quiet _ _ _ _ _ _ _ H Hq) as [t1' [_ H']].
          destruct t1'; discriminate H'. }
      cbn [all_complete]. rewrite Hcompl. split; [reflexivity | exact Hexn].
Qed.

(** When every command completes the loop runs to its end. *)
Lemma loop_complete (cmds : list str) (w : world) :
  all_complete env (exec_calls w) cmds = true ->
  exists t w',
    for_each cmds (step env) w = (t, w', Return tt) /\
    executed t = cmds /\ session w' = session w /\
    exec_calls w' = exec_calls w + List.length cmds.
Proof.
  intros Hall.
  destruct (for_each cmds (step env) w) as [[t w'] r] eqn:E.
  destruct (loop_shape _ _ _ _ _ E) as [Hs [_ [_ [_ Hr]]]].
  destruct r as [[]|e].
  - exists t, w'. destruct Hr as [He [_ Hn]]. repeat split; assumption.
  - destruct Hr as [Hf _]. congruence.
Qed.

End Loop.

(** ** The whole run *)

Section Main.

Variable env : environment.

Lemma bind_print_ascii {A} (text : str) (k : unit -> M A) (w : world) :
  all_ascii text = true ->
  bind (print env text) k w =
  match k tt w with
  | (t, w', r) => (Print (text ++ [newline]) :: t, w', r)
  end.
Proof.
  intros H. unfold bind. rewrite (print_ascii env text w H). reflexivity.
Qed.

Lemma handler_eq (e : exn) (w : world) :
  bind (print env (lit "Error: " ++ exn_str env e)) (fun _ => sys_exit 1) w =
  (handler_events env e, w, handler_result env e).
Proof.
  unfold bind, print, write, handler_events, handler_result, error_line.
  destruct (printable env _); reflexivity.
Qed.

Lemma main_with_eq (cmds : list str) (w : world) :
  main_with env cmds w =
  match connect_reply env with
  | Fails msg =>
      (preamble ++ Connect HOST USER 30 (Fails msg)
         :: handler_events env (OtherException msg) ++ [Close],
       closed w, handler_result env (OtherException msg))
  | Gives _ =>
      match for_each cmds (step env) (connected w) with
      | (t, w', Return _) =>
          (preamble ++ Connect HOST USER 30 (Gives tt) :: Print connected_line
             :: t ++ epilogue ++ [Close],
           closed w', Return tt)
      | (t, w', Raise e) =>
          if except_Exception e then
            (preamble ++ Connect HOST USER 30 (Gives tt) :: Print connected_line
               :: t ++ handler_events env e ++ [Close],
             closed w', handler_result env e)
          else
            (preamble ++ Connect HOST USER 30 (Gives tt) :: Print connected_line
               :: t ++ [Close],
             closed w', Raise e)
      end
  end.
Proof.
  unfold main_with.
  do 4 (rewrite bind_print_ascii by reflexivity).
  unfold try_finally, try_except. unfold bind at 1. unfold connect.
  destruct (connect_reply env) as [[]|msg].
  - fold (connected w).
    rewrite bind_print_ascii by reflexivity.
    unfold bind at 1.
    destruct (for_each cmds (step env) (connected w)) as [[t w'] [[]|e]].
    + do 6 (rewrite bind_print_ascii by reflexivity).
      rewrite print_ascii by reflexivity.
      unfold close, preamble, epilogue, connected_line, closed.
      repeat (cbn [app]; rewrite <- ?app_assoc). reflexivity.
    + destruct (except_Exception e).
      * rewrite handler_eq.
        unfold handler_result, handler_events.
        destruct (printable env (error_line env e));
          unfold close, preamble, connected_line, closed;
          repeat (cbn [app]; rewrite <- ?app_assoc); reflexivity.
      * unfold close, preamble, connected_line, closed.
        repeat (cbn [app]; rewrite <- ?app_assoc). reflexivity.
  - cbn [except_Exception]. rewrite handler_eq.
    unfold handler_result, handler_events.
    destruct (printable env (error_line env (OtherException msg)));
      unfold close, preamble, closed; reflexivity.
Qed.

End Main.

Section Run.

Variable env : environment.

Lemma handler_exit_code (e : exn) :
  process_exit_code (handler_result env e) = 1%Z.
Proof.
  unfold handler_result. destruct (printable env _); reflexivity.
Qed.

(** The run when [connect] raises. *)
Lemma run_connect_fails (cmds : list str) (msg : str) :
  connect_reply env = Fails msg ->
  run env cmds =
  {| trace := preamble ++ Connect HOST USER 30 (Fails msg)
                :: handler_events env (OtherException msg) ++ [Close];
     final_world := closed initial_world;
     exit_code := 1 |}.
Proof.
  intros H. unfold run. rewrite main_with_eq, H, handler_exit_code.
  reflexivity.
Qed.

(** The run when [connect] returns, in terms of the loop. *)
Lemma run_connected (cmds : list str) (t : list event) (w' : world)
      (r : result unit) :
  connect_reply env = Gives tt ->
  for_each cmds (step env) (connected initial_world) = (t, w', r) ->
  run env cmds =
  {| trace := preamble ++ Connect HOST USER 30 (Gives tt)
                :: Print connected_line :: t ++
                match r with
                | Return _ => epilogue
                | Raise e => handler_events env e
                end ++ [Close];
     final_world := closed w';
     exit_code := match r with Return _ => 0%Z | Raise _ => 1%Z end |}.
Proof.
  intros Hc Hl. unfold run. rewrite main_with_eq, Hc, Hl.
  destruct r as [[]|e]; [reflexivity|].
  destruct (loop_shape env _ _ _ _ _ Hl) as [_ [_ [_ [_ [_ He]]]]].
  rewrite He, handler_exit_code. reflexivity.
Qed.

Lemma preamble_quiet :
  executed preamble = [] /\ count_close preamble = 0 /\
  transport preamble = [].
Proof. repeat split. Qed.

Lemma epilogue_quiet :
  executed epilogue = [] /\ count_close epilogue = 0 /\
  transport epilogue = [].
Proof. repeat split. Qed.

Lemma handler_events_quiet (e : exn) :
  executed (handler_events env e) = [] /\
  count_close (handler_events env e) = 0 /\
  transport (handler_events env e) = [].
Proof.
  unfold handler_events. destruct (printable env _); repeat split.
Qed.

(** The exit code, from the environment alone. *)
Lemma exit_code_eq (cmds : list str) :
  exit_code (run env cmds) =
  match connect_reply env with
  | Gives _ => if all_complete env 0 cmds then 0%Z else 1%Z
  | Fails _ => 1%Z
  end.
Proof.
  destruct (connect_reply env) as [[]|msg] eqn:Hc.
  - destruct (for_each cmds (step env) (connected initial_world))
      as [[t w'] r] eqn:Hl.
    rewrite (run_connected _ _ _ _ Hc Hl). cbn [exit_code].
    destruct (loop_shape env _ _ _ _ _ Hl) as [_ [_ [_ [_ Hr]]]].
    cbn [connected initial_world exec_calls] in Hr.
    destruct r as [[]|e].
    + destruct Hr as [_ [-> _]]. reflexivity.
    + destruct Hr as [-> _]. reflexivity.
  - rewrite (run_connect_fails _ _ Hc). reflexivity.
Qed.

Lemma all_complete_app (n : nat) (xs ys : list str) :
  all_complete env n (xs ++ ys) =
  all_complete env n xs && all_complete env (n + List.length xs) ys.
Proof.
  revert n. induction xs as [|x xs IH]; intros n.
  - cbn [List.app all_complete List.length andb]. rewrite Nat.add_0_r.
    reflexivity.
  - cbn [List.app all_complete List.length]. rewrite IH, andb_assoc.
    rewrite Nat.add_succ_r. reflexivity.
Qed.

(** A transport failure leaves [run_command] as the exception it is. *)
Lemma run_command_fails (cmd : str) (timeout : Z) (w : world) (msg : str) :
  printable env (announced cmd) = true ->
  invocation_failure env (exec_calls w) cmd = Some msg ->
  exists t,
    run_command env cmd timeout w = (t, bump w, Raise (OtherException msg)) /\
    executed t = [cmd].
Proof.
  intros Ha Hf. rewrite run_command_eq, Ha.
  unfold invocation_failure in Hf.
  destruct (exec_reply env (exec_calls w) cmd) as [ch|m].
  - destruct (stdout_failure (stdout_reads ch)) as [m|].
    + injection Hf as ->. eexists. split; [reflexivity|].
      rewrite executed_print, executed_exec, stdout_events_executed.
      reflexivity.
    + destruct (exit_status ch) as [s|m]; [discriminate Hf|].
      injection Hf as ->. eexists. split; [reflexivity|].
      rewrite executed_print, executed_exec, !executed_app,
        stdout_events_executed, stderr_events_executed.
      reflexivity.
  - injection Hf as ->. eexists. split; reflexivity.
Qed.

(** A command whose invocation meets no transport failure returns its
    exit status, whatever its output and error text are. *)
Lemma run_command_returns (cmd : str) (timeout : Z) (w : world) :
  command_completes env (exec_calls w) cmd = true ->
  exists ch status,
    exec_reply env (exec_calls w) cmd = Gives ch /\
    exit_status ch = Gives status /\
    stdout_failure (stdout_reads ch) = None /\
    run_command env cmd timeout w =
    (Print (announced cmd) :: ExecCommand cmd timeout true
       :: stdout_events env (stdout_reads ch)
       ++ stderr_events env ch ++ [RecvExitStatus (Gives status)],
     bump w, Return status).
Proof.
  unfold command_completes, invocation_failure. intros H.
  apply andb_true_iff in H. destruct H as [Ha Hf].
  rewrite run_command_eq, Ha.
  destruct (exec_reply env (exec_calls w) cmd) as [ch|m]; [|discriminate Hf].
  destruct (stdout_failure (stdout_reads ch)) as [m|] eqn:Eo;
    [discriminate Hf|].
  destruct (exit_status ch) as [s|m] eqn:Es; [|discriminate Hf].
  exists ch, s.
  split; [reflexivity|]. split; [exact Es|]. split; [exact Eo|].
  reflexivity.
Qed.

End Run.

Section RunTraces.

Variable env : environment.

(** What a run that connected shows of its loop. *)
Lemma run_connected_view (cmds : list str) (t : list event) (w' : world)
      (r : result unit) :
  connect_reply env = Gives tt ->
  for_each cmds (step env) (connected initial_world) = (t, w', r) ->
  executed (trace (run env cmds)) = executed t /\
  transport (trace (run env cmds)) =
    Connect HOST USER 30 (Gives tt) :: transport t ++ [Close] /\
  (exists t', trace (run env cmds) = t' ++ [Close] /\ count_close t' = 0) /\
  final_world (run env cmds) = closed w'.
Proof.
  intros Hc Hl. rewrite (run_connected env _ _ _ _ Hc Hl). cbn [trace final_world].
  destruct (loop_shape env _ _ _ _ _ Hl) as [_ [Hclose _]].
  set (tail := match r with
               | Return _ => epilogue
               | Raise e => handler_events env e
               end).
  assert (Htail : executed tail = [] /\ count_close tail = 0 /\
                  transport tail = []).
  { subst tail. destruct r; [apply epilogue_quiet | apply handler_events_quiet]. }
  destruct Htail as [Hte [Htc Htt]].
  split; [|split; [|split]].
  - rewrite executed_app. cbn [executed].
    rewrite !executed_app, Hte. cbn [executed]. rewrite !app_nil_r.
    reflexivity.
  - rewrite transport_app.
    change (transport preamble) with (@nil event).
    change (transport (Connect HOST USER 30 (Gives tt) :: Print connected_line
                         :: t ++ tail ++ [Close]))
      with (Connect HOST USER 30 (Gives tt) :: transport (t ++ tail ++ [Close])).
    rewrite !transport_app, Htt. reflexivity.
  - exists (preamble ++ Connect HOST USER 30 (Gives tt) :: Print connected_line
              :: t ++ tail).
    split.
    + rewrite <- !app_assoc. cbn [List.app]. rewrite <- !app_assoc. reflexivity.
    + rewrite count_close_app.
      change (count_close (Connect HOST USER 30 (Gives tt) :: Print connected_line
                             :: t ++ tail))
        with (count_close (t ++ tail)).
      rewrite count_close_app, Hclose, Htc. reflexivity.
  - reflexivity.
Qed.

Lemma run_connect_fails_view (cmds : list str) (msg : str) :
  connect_reply env = Fails msg ->
  executed (trace (run env cmds)) = [] /\
  transport (trace (run env cmds)) =
    [Connect HOST USER 30 (Fails msg); Close] /\
  (exists t', trace (run env cmds) = t' ++ [Close] /\ count_close t' = 0) /\
  final_world (run env cmds) = closed initial_world.
Proof.
  intros Hc. rewrite (run_connect_fails env _ _ Hc). cbn [trace final_world].
  destruct (handler_events_quiet env (OtherException msg)) as [He [Hcl Ht]].
  split; [|split; [|split]].
  - rewrite executed_app. cbn [executed]. rewrite executed_app, He.
    reflexivity.
  - rewrite transport_app.
    change (transport preamble) with (@nil event).
    change (transport (Connect HOST USER 30 (Fails msg)
                         :: handler_events env (OtherException msg) ++ [Close]))
      with (Connect HOST USER 30 (Fails msg)
              :: transport (handler_events env (OtherException msg) ++ [Close])).
    rewrite transport_app, Ht. reflexivity.
  - exists (preamble ++ Connect HOST USER 30 (Fails msg)
              :: handler_events env (OtherException msg)).
    split.
    + rewrite <- !app_assoc. reflexivity.
    + rewrite count_close_app.
      change (count_close (Connect HOST USER 30 (Fails msg)
                             :: handler_events env (OtherException msg)))
        with (count_close (handler_events env (OtherException msg))).
      rewrite Hcl. reflexivity.
  - reflexivity.
Qed.

End RunTraces.

(** * The claims *)




(** C4. The process exits with code 0 whenever the connection is made and
    every command of the list runs to its exit status, whatever those
    statuses are; it exits with code 1 whenever [connect] raises, and
    whenever the invocation of some command of the list, reached after the
    commands before it completed, raises a transport error. *)
Theorem exit_code_policy (env : environment) (cmds : list str) :
  (connect_reply env = Gives tt ->
   all_complete env 0 cmds = true ->
   exit_code (run env cmds) = 0%Z) /\
  (forall msg,
      connect_reply env = Fails msg ->
      exit_code (run env cmds) = 1%Z) /\
  (forall pre cmd post msg,
      cmds = pre ++ cmd :: post ->
      connect_reply env = Gives tt ->
      all_complete env 0 pre = true ->
      invocation_failure env (List.length pre) cmd = Some msg ->
      exit_code (run env cmds) = 1%Z).
Proof.
  split; [|split].
  - intros Hc Ha. rewrite exit_code_eq, Hc, Ha. reflexivity.
  - intros msg Hc. rewrite exit_code_eq, Hc. reflexivity.
  - intros pre cmd post msg -> Hc Ha Hf.
    rewrite exit_code_eq, Hc, all_complete_app, Ha.
    cbn [all_complete andb Nat.add]. unfold command_completes.
    rewrite Hf, andb_false_r. reflexivity.
Qed.

Lemma exit_code_policy_witness :
  exit_code (run scenario_env scenario_cmds) = 0%Z /\
  exit_code (run unreachable_env scenario_cmds) = 1%Z /\
  exit_code (run dropped_env scenario_cmds) = 1%Z.
Proof.
  split; [|split].
  - apply (proj1 (exit_code_policy scenario_env scenario_cmds));
      reflexivity.
  - apply (proj1 (proj2 (exit_code_policy unreachable_env scenario_cmds))
             (lit "timed out")).
    reflexivity.
  - apply (proj2 (proj2 (exit_code_policy dropped_env scenario_cmds))
             [lit "true"] (lit "false") [probe]
             (lit "SSH session not active"));
      reflexivity.
Defined.

(** The scenario of section 8, run: three commands executed, one warning
    (for [false]), none for the probe, exit code 0. *)
Example scenario_run :
  executed (trace (run scenario_env scenario_cmds)) = scenario_cmds /\
  filter (contains (lit "Warning")) (printed (trace (run scenario_env scenario_cmds)))
  = [warning_line 1] /\
  exit_code (run scenario_env scenario_cmds) = 0%Z.
Proof. repeat split. Qed.

(** C5. If the invocation of a command raises (it cannot be started, or
    reading its output or its exit status fails, as on a timeout), the
    exception leaves [run_command] as it is, no later command is executed,
    and the process exits with code 1. *)
Theorem invocation_failure_aborts (env : environment) (pre post : list str)
        (cmd msg : str) :
  connect_reply env = Gives tt ->
  all_complete env 0 pre = true ->
  printable env (announced cmd) = true ->
  invocation_failure env (List.length pre) cmd = Some msg ->
  (forall w timeout,
      exec_calls w = List.length pre ->
      exists t,
        run_command env cmd timeout w =
        (t, bump w, Raise (OtherException msg))) /\
  executed (trace (run env (pre ++ cmd :: post))) = pre ++ [cmd] /\
  exit_code (run env (pre ++ cmd :: post)) = 1%Z.
Proof.
  intros Hc Ha Hp Hf. split; [|split].
  - intros w timeout Hw. rewrite <- Hw in Hf.
    destruct (run_command_fails env cmd timeout w msg Hp Hf) as [t [Ht _]].
    exists t. exact Ht.
  - destruct (loop_complete env pre (connected initial_world) Ha)
      as [t1 [w1 [Hl [He [_ Hn]]]]].
    cbn [connected initial_world exec_calls Nat.add] in Hn.
    rewrite <- Hn in Hf.
    destruct (run_command_fails env cmd default_timeout w1 msg Hp Hf)
      as [t2 [Hr Hex]].
    assert (Hloop : for_each (pre ++ cmd :: post) (step env)
                      (connected initial_world)
                    = (t1 ++ t2, bump w1, Raise (OtherException msg))).
    { rewrite for_each_app. unfold bind at 1. rewrite Hl.
      cbn [for_each]. unfold bind. rewrite step_eq, Hr. reflexivity. }
    destruct (run_connected_view env _ _ _ _ Hc Hloop) as [Hexec _].
    rewrite Hexec, executed_app, He, Hex. reflexivity.
  - rewrite exit_code_eq, Hc, all_complete_app, Ha.
    cbn [all_complete andb Nat.add]. unfold command_completes.
    rewrite Hf, andb_false_r. reflexivity.
Qed.

Lemma invocation_failure_aborts_witness :
  executed (trace (run dropped_env three_cmds)) = [lit "first"; lit "second"]
  /\ exit_code (run dropped_env three_cmds) = 1%Z.
Proof.
  apply (invocation_failure_aborts dropped_env [lit "first"] [lit "third"]
           (lit "second") (lit "SSH session not active"));
    reflexivity.
Defined.

(** C7. On every run, whatever the environment answers, the last
    interaction of the program is [ssh.close()], called exactly once, and
    the session is left closed. [close] itself returns normally in every
    state of the session, and closing a closed session changes nothing. *)
Theorem close_on_every_exit_path (env : environment) (cmds : list str) :
  (exists t, trace (run env cmds) = t ++ [Close] /\ count_close t = 0) /\
  session (final_world (run env cmds)) = Closed /\
  (forall w, exists w',
      close w = ([Close], w', Return tt) /\ session w' = Closed /\
      close w' = ([Close], w', Return tt)) /\
  (forall s, session_close (session_close s) = session_close s).
Proof.
  split; [|split; [|split]].
  - destruct (connect_reply env) as [[]|msg] eqn:Hc.
    + destruct (for_each cmds (step env) (connected initial_world))
        as [[t w'] r] eqn:Hl.
      apply (run_connected_view env _ _ _ _ Hc Hl).
    + apply (run_connect_fails_view env cmds msg Hc).
  - destruct (connect_reply env) as [[]|msg] eqn:Hc.
    + destruct (for_each cmds (step env) (connected initial_world))
        as [[t w'] r] eqn:Hl.
      destruct (run_connected_view env _ _ _ _ Hc Hl) as [_ [_ [_ ->]]].
      reflexivity.
    + destruct (run_connect_fails_view env cmds msg Hc) as [_ [_ [_ ->]]].
      reflexivity.
  - intros w. exists (closed w). repeat split.
  - reflexivity.
Qed.

(** ** C1: order and draining *)

Lemma close_not_exec (l t1 t2 : list event) (c : str) (to : Z) (b : bool) :
  l ++ [Close] = t1 ++ ExecCommand c to b :: t2 ->
  exists t2', l = t1 ++ ExecCommand c to b :: t2'.
Proof.
  intros H. destruct (exists_last (l := ExecCommand c to b :: t2))
    as [t2' [x Hx]]; [discriminate|].
  rewrite Hx, app_assoc in H. apply app_inj_tail in H.
  destruct H as [H Hlast].
  destruct t2' as [|e t2'].
  - injection Hx as <- _. discriminate Hlast.
  - injection Hx as <- _. exists t2'. exact H.
Qed.

(** C1, as the code has it. The commands executed are always an initial
    part of the list, in list order, and all of it when the connection is
    made and no invocation raises. No command is started before the one
    before it has had its output stream read to the end, the read of its
    error stream done (answered, or failed and suppressed) and its exit
    status obtained. *)
Theorem commands_run_in_order (env : environment) (cmds : list str) :
  (exists rest, cmds = executed (trace (run env cmds)) ++ rest) /\
  (connect_reply env = Gives tt ->
   all_complete env 0 cmds = true ->
   executed (trace (run env cmds)) = cmds) /\
  (forall t1 c to b t2,
      transport (trace (run env cmds)) = t1 ++ ExecCommand c to b :: t2 ->
      executed t1 <> [] ->
      drained_before t1).
Proof.
  destruct (connect_reply env) as [[]|msg] eqn:Hc.
  - destruct (for_each cmds (step env) (connected initial_world))
      as [[t w'] r] eqn:Hl.
    destruct (run_connected_view env _ _ _ _ Hc Hl) as [He [Ht _]].
    destruct (loop_shape env _ _ _ _ _ Hl) as [_ [_ [Hrest [Hord Hr]]]].
    split; [|split].
    + rewrite He. exact Hrest.
    + intros _ Ha. rewrite He.
      cbn [connected initial_world exec_calls] in Hr.
      destruct r as [[]|e]; [apply Hr|].
      destruct Hr as [Hf _]. congruence.
    + intros t1 c to b t2 H Hne. rewrite Ht in H.
      destruct t1 as [|e1 t1]; [exfalso; apply Hne; reflexivity|].
      cbn [List.app] in H. injection H as <- H.
      apply close_not_exec in H. destruct H as [t2' H].
      destruct (Hord _ _ _ _ _ H) as [-> | Hd].
      * exfalso. apply Hne. reflexivity.
      * apply (drained_before_app [Connect HOST USER 30 (Gives tt)]) in Hd.
        exact Hd.
  - destruct (run_connect_fails_view env cmds msg Hc) as [He [Ht _]].
    split; [|split].
    + rewrite He. exists cmds. reflexivity.
    + intros H. discriminate H.
    + intros t1 c to b t2 H Hne. rewrite Ht in H.
      rewrite <- (app_nil_r [Connect HOST USER 30 (Fails msg); Close]) in H.
      destruct (exec_after_quiet _ _ _ _ _ _ _ H eq_refl) as [t1' [_ H']].
      destruct t1'; discriminate H'.
Qed.

Lemma commands_run_in_order_witness :
  executed (trace (run scenario_env scenario_cmds)) = scenario_cmds /\
  drained_before
    [Connect HOST USER 30 (Gives tt);
     ExecCommand (lit "true") default_timeout true;
     Readline (Gives []); StderrRead (Gives []); RecvExitStatus (Gives 0%Z)].
Proof.
  split.
  - apply (proj1 (proj2 (commands_run_in_order scenario_env scenario_cmds)));
      reflexivity.
  - apply (proj2 (proj2 (commands_run_in_order scenario_env scenario_cmds))
             _ (lit "false") default_timeout true
             [Readline (Gives []); StderrRead (Gives []);
              RecvExitStatus (Gives 1%Z);
              ExecCommand probe default_timeout true;
              Readline (Gives []); StderrRead (Gives []);
              RecvExitStatus (Gives 1%Z); Close]).
    + reflexivity.
    + discriminate.
Defined.

(** With three commands, the read of the first one's error stream failing
    and the second invocation refused: two calls of [exec_command], not
    three, and the second command is started although the first one's
    error stream was never read to its end. *)
Lemma commands_run_in_order_counterexample :
  transport (trace (run faulty_env three_cmds)) =
    [Connect HOST USER 30 (Gives tt);
     ExecCommand (lit "first") default_timeout true;
     Readline (Gives []); StderrRead (Fails (lit "timed out"));
     RecvExitStatus (Gives 0%Z);
     ExecCommand (lit "second") default_timeout false;
     Close] /\
  executed (trace (run faulty_env three_cmds)) <> three_cmds /\
  ~ (forall t1 c to b t2,
        transport (trace (run faulty_env three_cmds))
        = t1 ++ ExecCommand c to b :: t2 ->
        executed t1 <> [] ->
        fully_drained_before t1) /\
  ~ strictly_sequenced faulty_env three_cmds.
Proof.
  assert (Hneg : ~ (forall t1 c to b t2,
        transport (trace (run faulty_env three_cmds))
        = t1 ++ ExecCommand c to b :: t2 ->
        executed t1 <> [] ->
        fully_drained_before t1)).
  { intros H.
    specialize (H [Connect HOST USER 30 (Gives tt);
                   ExecCommand (lit "first") default_timeout true;
                   Readline (Gives []); StderrRead (Fails (lit "timed out"));
                   RecvExitStatus (Gives 0%Z)]
                  (lit "second") default_timeout false [Close] eq_refl).
    destruct H as [t0 [err [status H]]]; [discriminate|].
    change [Connect HOST USER 30 (Gives tt);
            ExecCommand (lit "first") default_timeout true;
            Readline (Gives []); StderrRead (Fails (lit "timed out"));
            RecvExitStatus (Gives 0%Z)]
      with (([Connect HOST USER 30 (Gives tt);
              ExecCommand (lit "first") default_timeout true;
              Readline (Gives [])] ++ [StderrRead (Fails (lit "timed out"))])
            ++ [RecvExitStatus (Gives 0%Z)]) in H.
    change (t0 ++ [Readline (Gives []); StderrRead (Gives err);
                   RecvExitStatus (Gives status)])
      with (t0 ++ [Readline (Gives [])] ++ [StderrRead (Gives err)]
               ++ [RecvExitStatus (Gives status)]) in H.
    rewrite !app_assoc in H.
    apply app_inj_tail in H. destruct H as [H _].
    apply app_inj_tail in H. destruct H as [_ H]. discriminate H. }
  split; [reflexivity|]. split; [discriminate|]. split; [exact Hneg|].
  intros [_ H]. exact (Hneg H).
Qed.

(** ** C2 and C9: the warning *)

(** C2. For a command that exits with [status], lines 91-92 write the
    warning line, which carries the decimal status, exactly when the
    status is not zero and the command is not the designated diagnostic
    one; in either case the loop goes on with the rest of the list. *)
Theorem warning_policy (env : environment) (cmd : str) (rest : list str)
        (w w' : world) (t : list event) (status : Z) :
  run_command env cmd default_timeout w = (t, w', Return status) ->
  step env cmd w = (t ++ warning_events cmd status, w', Return tt) /\
  (warning_events cmd status = [Print (warning_line status)] <->
   status <> 0%Z /\ is_diagnostic cmd = false) /\
  (warning_events cmd status = [] <->
   ~ (status <> 0%Z /\ is_diagnostic cmd = false)) /\
  contains (str_of_int status) (warning_line status) = true /\
  for_each (cmd :: rest) (step env) w =
  match for_each rest (step env) w' with
  | (t', w'', r) => ((t ++ warning_events cmd status) ++ t', w'', r)
  end.
Proof.
  intros Hr.
  assert (Hs : step env cmd w = (t ++ warning_events cmd status, w', Return tt)).
  { rewrite step_eq, Hr. reflexivity. }
  split; [exact Hs|]. split; [|split; [|split]].
  - unfold warning_events.
    destruct (Z.eqb_spec status 0) as [->|Hne];
      destruct (is_diagnostic cmd); cbn [negb andb]; split;
        try discriminate; try (intros [H1 H2]; congruence); auto.
  - unfold warning_events.
    destruct (Z.eqb_spec status 0) as [->|Hne];
      destruct (is_diagnostic cmd); cbn [negb andb]; split;
        try discriminate; try reflexivity;
        try (intros _ [H1 H2]; congruence).
    intros H. exfalso. apply H. split; [exact Hne | reflexivity].
  - apply warning_shows_status.
  - cbn [for_each]. unfold bind. rewrite Hs. reflexivity.
Qed.

Lemma warning_policy_witness :
  step scenario_env (lit "false") (bump (connected initial_world)) =
  ([Print (announced (lit "false"));
    ExecCommand (lit "false") default_timeout true;
    Readline (Gives []); StderrRead (Gives []); RecvExitStatus (Gives 1%Z);
    Print (warning_line 1)],
   bump (bump (connected initial_world)), Return tt).
Proof.
  apply (warning_policy scenario_env (lit "false") [probe]
           (bump (connected initial_world))
           (bump (bump (connected initial_world)))
           [Print (announced (lit "false"));
            ExecCommand (lit "false") default_timeout true;
            Readline (Gives []); StderrRead (Gives []);
            RecvExitStatus (Gives 1%Z)] 1%Z).
  reflexivity.
Defined.

(** C9. Whether a failing command is exempt from the warning depends on
    one thing only: whether its text has ["curl"] somewhere in it. If it
    has, no warning is written, whatever the command is; if it has not,
    the warning is written. *)
Theorem diagnostic_exemption (env : environment) (cmd : str) (w w' : world)
        (t : list event) (status : Z) :
  run_command env cmd default_timeout w = (t, w', Return status) ->
  status <> 0%Z ->
  (is_diagnostic cmd = true <-> exists a b, cmd = a ++ lit "curl" ++ b) /\
  ((exists a b, cmd = a ++ lit "curl" ++ b) ->
   step env cmd w = (t, w', Return tt)) /\
  (~ (exists a b, cmd = a ++ lit "curl" ++ b) ->
   step env cmd w = (t ++ [Print (warning_line status)], w', Return tt)).
Proof.
  intros Hr Hne.
  assert (Hd : is_diagnostic cmd = true <->
               exists a b, cmd = a ++ lit "curl" ++ b)
    by apply contains_substring.
  split; [exact Hd|].
  rewrite step_eq, Hr. unfold warning_events.
  destruct (Z.eqb_spec status 0) as [E|_]; [contradiction|].
  cbn [negb andb]. split.
  - intros H. apply Hd in H. rewrite H. cbn [negb]. rewrite app_nil_r.
    reflexivity.
  - intros H. destruct (is_diagnostic cmd); [|reflexivity].
    exfalso. apply H, Hd. reflexivity.
Qed.

Lemma diagnostic_exemption_witness :
  step snowy_env install_curl initial_world =
  ([Print (announced install_curl);
    ExecCommand install_curl default_timeout true;
    Readline (Gives snowy_line); Print (lit "snow ?" ++ [newline]);
    Readline (Gives (lit "done" ++ [newline]));
    Print (lit "done" ++ [newline]);
    Readline (Gives []);
    StderrRead (Gives (lit "caf" ++ [233%N]));
    RecvExitStatus (Gives 3%Z)],
   bump initial_world, Return tt).
Proof.
  apply (proj1 (proj2 (diagnostic_exemption snowy_env install_curl
                         initial_world (bump initial_world) _ 3%Z
                         eq_refl ltac:(discriminate)))).
  exists (lit "apt-get install -y "), []. reflexivity.
Defined.

(** ** C6, C8 and C10: what a command writes *)

(** C6. A line of remote output that the invoker's encoding cannot
    represent is written in its ASCII rendering, and the streaming loop
    goes on with the next line. Whether a command runs to its exit status
    does not depend on what its output and error text contain: the only
    [UnicodeEncodeError] that can leave [run_command] is that of the
    announcement of the command itself, before anything is executed. *)
Theorem encoding_failure_recovered (env : environment) :
  (forall line w,
      printable env line = false ->
      print_line env line w = ([Print (ascii_replace line)], w, Return tt)) /\
  (forall line rest w,
      is_empty line = false ->
      printable env line = false ->
      stream_stdout env (Gives line :: rest) w =
      match stream_stdout env rest w with
      | (t, w', r) =>
          (Readline (Gives line) :: Print (ascii_replace line) :: t, w', r)
      end) /\
  (forall cmd timeout w,
      command_completes env (exec_calls w) cmd = true ->
      exists t status,
        run_command env cmd timeout w = (t, bump w, Return status)) /\
  (forall cmd timeout w t w' text,
      run_command env cmd timeout w = (t, w', Raise (UnicodeEncodeError text)) ->
      t = [] /\ text = announced cmd).
Proof.
  split; [|split; [|split]].
  - intros line w H. rewrite print_line_eq. unfold rendered. rewrite H.
    reflexivity.
  - intros line rest w Hne H. rewrite !stream_stdout_eq.
    cbn [stdout_events stdout_failure]. rewrite Hne.
    unfold rendered. rewrite H. reflexivity.
  - intros cmd timeout w H.
    destruct (run_command_returns env cmd timeout w H)
      as [ch [status [_ [_ [_ Hr]]]]].
    eexists; exists status. exact Hr.
  - intros cmd timeout w t w' text. rewrite run_command_eq.
    destruct (printable env (announced cmd)).
    + destruct (exec_reply env (exec_calls w) cmd) as [ch|m];
        [|discriminate].
      destruct (stdout_failure (stdout_reads ch)); [discriminate|].
      destruct (exit_status ch); discriminate.
    + intros H. injection H as <- _ <-. split; reflexivity.
Qed.

Lemma encoding_failure_recovered_witness :
  printable snowy_env snowy_line = false /\
  print_line snowy_env snowy_line initial_world =
  ([Print (lit "snow ?" ++ [newline])], initial_world, Return tt) /\
  exists t status,
    run_command snowy_env (lit "make") default_timeout initial_world =
    (t, bump initial_world, Return status).
Proof.
  split; [reflexivity|]. split.
  - apply (proj1 (encoding_failure_recovered snowy_env)). reflexivity.
  - apply (proj1 (proj2 (proj2 (encoding_failure_recovered snowy_env)))).
    reflexivity.
Defined.

(** C8. A command that produces no output line and no error text and
    exits with status 0 makes the sequencer write one text only, the
    announcement of the command: no output line, no STDERR block, no
    warning. *)
Theorem silent_command_announced_only (env : environment) (cmd : str)
        (w : world) (ch : channel) :
  printable env (announced cmd) = true ->
  exec_reply env (exec_calls w) cmd = Gives ch ->
  stdout_failure (stdout_reads ch) = None ->
  stdout_lines (stdout_reads ch) = [] ->
  stderr_text ch = Gives [] ->
  exit_status ch = Gives 0%Z ->
  exists t,
    step env cmd w = (t, bump w, Return tt) /\
    printed t = [announced cmd].
Proof.
  intros Hp Hx Hf Hl He Hs.
  rewrite step_eq, run_command_eq, Hp, Hx, Hf, Hs.
  eexists. split; [reflexivity|].
  rewrite printed_app.
  change (warning_events cmd 0) with (@nil event).
  change (printed (Print (announced cmd) :: ExecCommand cmd default_timeout true
                     :: stdout_events env (stdout_reads ch)
                     ++ stderr_events env ch ++ [RecvExitStatus (Gives 0%Z)]))
    with (announced cmd
            :: printed (stdout_events env (stdout_reads ch)
                        ++ stderr_events env ch ++ [RecvExitStatus (Gives 0%Z)])).
  rewrite !printed_app, stdout_events_printed, Hl.
  unfold stderr_events. rewrite He. reflexivity.
Qed.

Lemma silent_command_announced_only_witness :
  exists t,
    step calm_env (lit "mkdir -p /opt/trueticket/data") initial_world =
    (t, bump initial_world, Return tt) /\
    printed t = [[newline] ++ lit ">>> mkdir -p /opt/trueticket/data"
                  ++ [newline]].
Proof.
  apply (silent_command_announced_only calm_env
           (lit "mkdir -p /opt/trueticket/data") initial_world (silent 0));
    reflexivity.
Defined.

(** C10. When the read of a command's error stream raises, whatever the
    exception, lines 32-37 swallow it: they write nothing, [run_command]
    does not raise, and it returns the command's exit status. What the
    command made the sequencer write is then the announcement and the
    output lines only. *)
Theorem stderr_failure_suppressed (env : environment) (cmd : str)
        (timeout : Z) (w : world) (ch : channel) (msg : str) (status : Z) :
  printable env (announced cmd) = true ->
  exec_reply env (exec_calls w) cmd = Gives ch ->
  stdout_failure (stdout_reads ch) = None ->
  stderr_text ch = Fails msg ->
  exit_status ch = Gives status ->
  report_stderr env ch w = ([StderrRead (Fails msg)], w, Return tt) /\
  exists t,
    run_command env cmd timeout w = (t, bump w, Return status) /\
    printed t =
    announced cmd :: map (rendered env) (stdout_lines (stdout_reads ch)).
Proof.
  intros Hp Hx Hf He Hs. split.
  - rewrite report_stderr_eq. unfold stderr_events. rewrite He. reflexivity.
  - rewrite run_command_eq, Hp, Hx, Hf, Hs.
    eexists. split; [reflexivity|].
    change (printed (Print (announced cmd) :: ExecCommand cmd timeout true
                       :: stdout_events env (stdout_reads ch)
                       ++ stderr_events env ch
                       ++ [RecvExitStatus (Gives status)]))
      with (announced cmd
              :: printed (stdout_events env (stdout_reads ch)
                          ++ stderr_events env ch
                          ++ [RecvExitStatus (Gives status)])).
    rewrite !printed_app, stdout_events_printed.
    unfold stderr_events. rewrite He. cbn [printed]. rewrite app_nil_r.
    reflexivity.
Qed.

Lemma stderr_failure_suppressed_witness :
  report_stderr deaf_env deaf initial_world =
  ([StderrRead (Fails (lit "timed out"))], initial_world, Return tt) /\
  exists t,
    run_command deaf_env (lit "make") default_timeout initial_world =
    (t, bump initial_world, Return 2%Z) /\
    printed t = [announced (lit "make"); lit "built" ++ [newline]].
Proof.
  apply (stderr_failure_suppressed deaf_env (lit "make") default_timeout
           initial_world deaf (lit "timed out") 2%Z);
    reflexivity.
Defined.

(** * Further properties of the script *)

(** ** Text written for a line *)

(** X5. Lines 26-29 always return, having written exactly one text for
    the line. That text can be represented on the invoker's standard
    output, has as many code points as the line, is the line itself when
    the line can be represented (non-ASCII lines included), and in every
    case has each ASCII code point of the line at its place, so that a
    final newline stays where it is. *)
Theorem print_line_faithful (env : environment) (line : str) (w : world) :
  exists text,
    print_line env line w = ([Print text], w, Return tt) /\
    printable env text = true /\
    List.length text = List.length line /\
    (printable env line = true -> text = line) /\
    (forall i c,
        nth_error line i = Some c -> N.ltb c 128 = true ->
        nth_error text i = Some c).
Proof.
  unfold print_line, try_except, print_noend, write.
  destruct (printable env line) eqn:E.
  - exists line. split; [reflexivity|]. split; [exact E|].
    split; [reflexivity|]. split; [reflexivity|].
    intros i c H _. exact H.
  - cbn [except_UnicodeEncodeError].
    rewrite (all_ascii_printable env _ (all_ascii_replace line)).
    exists (ascii_replace line). split; [reflexivity|].
    split; [apply all_ascii_printable, all_ascii_replace|].
    split; [apply length_map|]. split; [discriminate|].
    intros i c H Hc. unfold ascii_replace.
    rewrite (map_nth_error _ _ _ H), Hc. reflexivity.
Qed.

Lemma print_line_faithful_witness :
  print_line latin1_env cafe_line initial_world =
  ([Print cafe_line], initial_world, Return tt) /\
  exists text,
    print_line snowy_env snowy_line initial_world =
    ([Print text], initial_world, Return tt) /\
    nth_error text 6 = Some newline.
Proof.
  split.
  - destruct (print_line_faithful latin1_env cafe_line initial_world)
      as [text [He [_ [_ [Hv _]]]]].
    rewrite He, (Hv eq_refl). reflexivity.
  - destruct (print_line_faithful snowy_env snowy_line initial_world)
      as [text [He [_ [_ [_ Hpos]]]]].
    exists text. split; [exact He|].
    apply Hpos; reflexivity.
Defined.

(** ** The streaming loop *)

Lemma stdout_events_stop (env : environment) (reads rest : list (reply str)) :
  stdout_events env (reads ++ Gives [] :: rest) = stdout_events env reads /\
  stdout_failure (reads ++ Gives [] :: rest) = stdout_failure reads.
Proof.
  induction reads as [|[line|msg] reads [IH1 IH2]].
  - split; reflexivity.
  - destruct line as [|c line]; [split; reflexivity|].
    cbn [List.app stdout_events stdout_failure is_empty].
    rewrite IH1, IH2. split; reflexivity.
  - split; reflexivity.
Qed.

(** X3. The first empty string [readline] returns ends the loop of lines
    22-29: what the stream would give after it is never asked for, and the
    loop behaves as if the stream ended there. *)
Theorem stream_stops_at_empty (env : environment)
        (reads rest : list (reply str)) (w : world) :
  stream_stdout env (reads ++ Gives [] :: rest) w = stream_stdout env reads w.
Proof.
  rewrite !stream_stdout_eq.
  destruct (stdout_events_stop env reads rest) as [-> ->]. reflexivity.
Qed.

(** ** The error text *)

Lemma printable_stderr_block (env : environment) (err : str) :
  printable env (stderr_block err) = printable env err.
Proof.
  unfold stderr_block. rewrite !printable_app.
  rewrite (all_ascii_printable env (lit "STDERR: ") eq_refl).
  rewrite (all_ascii_printable env [newline] eq_refl).
  rewrite andb_true_r. reflexivity.
Qed.

(** X4. When the error stream is read, lines 32-37 write the block
    ["STDERR: "] + text + newline exactly when the text is not empty and
    can be represented on the invoker's standard output. A text that
    cannot is not re-encoded as an output line would be: nothing is
    written for it, and nothing is raised. *)
Theorem stderr_block_policy (env : environment) (ch : channel) (w : world)
        (err : str) :
  stderr_text ch = Gives err ->
  report_stderr env ch w =
  (StderrRead (Gives err)
     :: (if is_empty err then []
         else if printable env err
              then [Print (lit "STDERR: " ++ err ++ [newline])]
              else []),
   w, Return tt).
Proof.
  intros H. rewrite report_stderr_eq. unfold stderr_events.
  rewrite H, printable_stderr_block. reflexivity.
Qed.

Lemma stderr_block_policy_witness :
  report_stderr snowy_env snowy initial_world =
  ([StderrRead (Gives (lit "caf" ++ [233%N]))], initial_world, Return tt).
Proof.
  apply (stderr_block_policy snowy_env snowy initial_world
           (lit "caf" ++ [233%N])).
  reflexivity.
Defined.

(** ** What a command and a run write *)

Section Writes.

Variable env : environment.

Lemma stderr_events_printed (ch : channel) :
  printed (stderr_events env ch) = stderr_writes env ch.
Proof.
  unfold stderr_events, stderr_writes.
  destruct (stderr_text ch) as [err|msg]; [|reflexivity].
  destruct (is_empty err); [reflexivity|].
  destruct (printable env _); reflexivity.
Qed.

Lemma warning_events_printed (cmd : str) (status : Z) :
  printed (warning_events cmd status) = warning_writes cmd status.
Proof.
  unfold warning_events, warning_writes. destruct (_ && _); reflexivity.
Qed.

Lemma printed_command (cmd : str) (timeout : Z) (ch : channel) (r : reply Z) :
  printed (Print (announced cmd) :: ExecCommand cmd timeout true
             :: stdout_events env (stdout_reads ch)
             ++ stderr_events env ch ++ [RecvExitStatus r]) =
  announced cmd :: map (rendered env) (stdout_lines (stdout_reads ch))
    ++ stderr_writes env ch.
Proof.
  change (announced cmd
            :: printed (stdout_events env (stdout_reads ch)
                        ++ stderr_events env ch ++ [RecvExitStatus r]) =
          announced cmd :: map (rendered env) (stdout_lines (stdout_reads ch))
            ++ stderr_writes env ch).
  rewrite !printed_app, stdout_events_printed, stderr_events_printed.
  cbn [printed]. rewrite app_nil_r. reflexivity.
Qed.

Lemma loop_printed (cmds : list str) (w : world) :
  all_complete env (exec_calls w) cmds = true ->
  exists t w',
    for_each cmds (step env) w = (t, w', Return tt) /\
    printed t = loop_writes env (exec_calls w) cmds.
Proof.
  revert w. induction cmds as [|cmd cmds IH]; intros w Ha.
  - exists [], w. split; reflexivity.
  - cbn [all_complete] in Ha. apply andb_true_iff in Ha.
    destruct Ha as [Hc Hrest].
    destruct (run_command_returns env cmd default_timeout w Hc)
      as [ch [status [Hx [Hs [_ Hr]]]]].
    destruct (IH (bump w) Hrest) as [t2 [w2 [Hl Hp]]].
    eexists. exists w2. split.
    + cbn [for_each]. unfold bind. rewrite step_eq, Hr, Hl. reflexivity.
    + rewrite !printed_app, printed_command, warning_events_printed, Hp.
      cbn [loop_writes bump exec_calls]. unfold command_writes.
      rewrite Hx, Hs. rewrite <- !app_comm_cons, <- !app_assoc.
      reflexivity.
Qed.

End Writes.

(** X1. For a command whose invocation meets no transport failure,
    [run_command] writes, in this order: the announcement, the output
    lines in the order received (each as it is, or in its ASCII
    rendering), and then the STDERR block if there is one; it writes
    nothing else, and returns the exit status. *)
Theorem run_command_writes (env : environment) (cmd : str) (timeout : Z)
        (w : world) (ch : channel) (status : Z) :
  printable env (announced cmd) = true ->
  exec_reply env (exec_calls w) cmd = Gives ch ->
  stdout_failure (stdout_reads ch) = None ->
  exit_status ch = Gives status ->
  exists t,
    run_command env cmd timeout w = (t, bump w, Return status) /\
    printed t =
    announced cmd :: map (rendered env) (stdout_lines (stdout_reads ch))
      ++ stderr_writes env ch.
Proof.
  intros Hp Hx Hf Hs. rewrite run_command_eq, Hp, Hx, Hf, Hs.
  eexists. split; [reflexivity|]. apply printed_command.
Qed.

Lemma run_command_writes_witness :
  exists t,
    run_command deaf_env (lit "make") default_timeout initial_world =
    (t, bump initial_world, Return 2%Z) /\
    printed t = [announced (lit "make"); lit "built" ++ [newline]].
Proof.
  apply (run_command_writes deaf_env (lit "make") default_timeout
           initial_world deaf 2%Z);
    reflexivity.
Defined.

(** X2. When the connection is made and every command runs to its exit
    status, the run writes the opening lines, the connection message, then
    for each command of the list, in list order and without interleaving,
    what that command makes it write (announcement, output lines, STDERR
    block, warning), and then the closing lines. *)
Theorem complete_run_writes (env : environment) (cmds : list str) :
  connect_reply env = Gives tt ->
  all_complete env 0 cmds = true ->
  printed (trace (run env cmds)) =
  printed preamble ++ connected_line :: loop_writes env 0 cmds
    ++ printed epilogue.
Proof.
  intros Hc Ha.
  destruct (loop_printed env cmds (connected initial_world) Ha)
    as [t [w' [Hl Hp]]].
  rewrite (run_connected env _ _ _ _ Hc Hl). cbn [trace].
  rewrite printed_app. f_equal.
  change (connected_line :: printed (t ++ epilogue ++ [Close]) =
          connected_line :: loop_writes env 0 cmds ++ printed epilogue).
  rewrite !printed_app, Hp. cbn [printed]. rewrite app_nil_r. reflexivity.
Qed.

Lemma complete_run_writes_witness :
  printed (trace (run scenario_env scenario_cmds)) =
  printed preamble ++ connected_line
    :: [announced (lit "true"); announced (lit "false"); warning_line 1;
        announced probe]
    ++ printed epilogue.
Proof.
  apply (complete_run_writes scenario_env scenario_cmds); reflexivity.
Defined.

(** ** The exit code and the commands after a failure *)

(** X6. The exit code is 0 or 1, and it is 0 exactly when the connection
    was made and every command of the list ran to its exit status. *)
Theorem exit_code_zero_iff (env : environment) (cmds : list str) :
  (exit_code (run env cmds) = 0%Z <->
   connect_reply env = Gives tt /\ all_complete env 0 cmds = true) /\
  (exit_code (run env cmds) = 0%Z \/ exit_code (run env cmds) = 1%Z).
Proof.
  rewrite exit_code_eq.
  destruct (connect_reply env) as [[]|msg].
  - destruct (all_complete env 0 cmds); split.
    + split; [intros _; split; reflexivity | reflexivity].
    + left. reflexivity.
    + split; [discriminate | intros [_ H]; discriminate H].
    + right. reflexivity.
  - split.
    + split; [discriminate | intros [H _]; discriminate H].
    + right. reflexivity.
Qed.

Lemma exit_code_zero_iff_witness :
  exit_code (run scenario_env scenario_cmds) = 0%Z /\
  all_complete dropped_env 0 three_cmds = false.
Proof.
  split.
  - apply (proj1 (exit_code_zero_iff scenario_env scenario_cmds)).
    split; reflexivity.
  - destruct (all_complete dropped_env 0 three_cmds) eqn:E; [|reflexivity].
    assert (H : exit_code (run dropped_env three_cmds) = 0%Z).
    { apply (proj1 (exit_code_zero_iff dropped_env three_cmds)).
      split; [reflexivity | exact E]. }
    discriminate H.
Defined.

(** X9. What comes after a command that does not complete has no effect
    at all: when some command of [pre] does not run to its exit status,
    the run on [pre ++ post] is the run on [pre], interaction for
    interaction. *)
Theorem later_commands_unreached (env : environment) (pre post : list str) :
  all_complete env 0 pre = false ->
  run env (pre ++ post) = run env pre.
Proof.
  intros Ha. unfold run. rewrite !main_with_eq.
  destruct (connect_reply env) as [[]|msg]; [|reflexivity].
  rewrite for_each_app. unfold bind.
  destruct (for_each pre (step env) (connected initial_world))
    as [[t w'] r] eqn:Hl.
  destruct (loop_shape env _ _ _ _ _ Hl) as [_ [_ [_ [_ Hr]]]].
  cbn [connected initial_world exec_calls] in Hr.
  destruct r as [[]|e]; [|reflexivity].
  destruct Hr as [_ [Hr _]]. congruence.
Qed.

Lemma later_commands_unreached_witness :
  run dropped_env ([lit "first"; lit "second"] ++ [lit "third"]) =
  run dropped_env [lit "first"; lit "second"].
Proof.
  apply (later_commands_unreached dropped_env); reflexivity.
Defined.

(** ** Failures of [print] outside the streaming loop *)

Lemma printable_announced (env : environment) (cmd : str) :
  printable env (announced cmd) = printable env cmd.
Proof.
  unfold announced, announcement. rewrite !printable_app.
  rewrite (all_ascii_printable env [newline] eq_refl).
  rewrite (all_ascii_printable env (lit ">>> ") eq_refl).
  rewrite andb_true_r. reflexivity.
Qed.

(** X7. When [connect] raises with a message that the invoker's standard
    output cannot represent, the [print] of the handler raises in turn:
    no error line is written, nothing is executed, the session is still
    closed and the process still exits with code 1. *)
Theorem unprintable_error_unreported (env : environment) (cmds : list str)
        (msg : str) :
  connect_reply env = Fails msg ->
  printable env msg = false ->
  printed (trace (run env cmds)) = printed preamble /\
  transport (trace (run env cmds)) =
    [Connect HOST USER 30 (Fails msg); Close] /\
  exit_code (run env cmds) = 1%Z.
Proof.
  intros Hc Hp.
  destruct (run_connect_fails_view env cmds msg Hc) as [_ [Ht _]].
  split; [|split; [exact Ht|]].
  - rewrite (run_connect_fails env _ _ Hc). cbn [trace].
    rewrite printed_app. unfold handler_events, error_line. cbn [exn_str].
    assert (H : printable env ((lit "Error: " ++ msg) ++ [newline]) = false).
    { rewrite !printable_app, Hp, andb_false_r. reflexivity. }
    rewrite H. cbn [printed List.app]. rewrite app_nil_r. reflexivity.
  - rewrite exit_code_eq, Hc. reflexivity.
Qed.

Lemma unprintable_error_unreported_witness :
  printed (trace (run garbled_env commands)) = printed preamble /\
  transport (trace (run garbled_env commands)) =
    [Connect HOST USER 30 (Fails (lit "Verbindung abgelehnt: Schl" ++ [252%N]));
     Close] /\
  exit_code (run garbled_env commands) = 1%Z.
Proof.
  apply (unprintable_error_unreported garbled_env commands
           (lit "Verbindung abgelehnt: Schl" ++ [252%N]));
    reflexivity.
Defined.

(** X8. A command whose text the invoker's standard output cannot
    represent is never sent to the server: its announcement raises before
    [exec_command] is called, the commands executed are those before it,
    and the process exits with code 1. *)
Theorem unprintable_command_not_sent (env : environment)
        (pre post : list str) (cmd : str) :
  connect_reply env = Gives tt ->
  all_complete env 0 pre = true ->
  printable env cmd = false ->
  (forall w timeout,
      run_command env cmd timeout w =
      ([], w, Raise (UnicodeEncodeError (announced cmd)))) /\
  executed (trace (run env (pre ++ cmd :: post))) = pre /\
  exit_code (run env (pre ++ cmd :: post)) = 1%Z.
Proof.
  intros Hc Ha Hp. rewrite <- printable_announced in Hp.
  assert (Hr : forall w timeout,
             run_command env cmd timeout w =
             ([], w, Raise (UnicodeEncodeError (announced cmd)))).
  { intros w timeout. rewrite run_command_eq, Hp. reflexivity. }
  split; [exact Hr|]. split.
  - destruct (loop_complete env pre (connected initial_world) Ha)
      as [t1 [w1 [Hl [He _]]]].
    assert (Hloop : for_each (pre ++ cmd :: post) (step env)
                      (connected initial_world)
                    = (t1 ++ [], w1,
                       Raise (UnicodeEncodeError (announced cmd)))).
    { rewrite for_each_app. unfold bind at 1. rewrite Hl.
      cbn [for_each]. unfold bind. rewrite step_eq, Hr. reflexivity. }
    destruct (run_connected_view env _ _ _ _ Hc Hloop) as [Hexec _].
    rewrite Hexec, app_nil_r. exact He.
  - rewrite exit_code_eq, Hc, all_complete_app, Ha.
    cbn [all_complete andb]. unfold command_completes.
    rewrite Hp. reflexivity.
Qed.

Lemma unprintable_command_not_sent_witness :
  executed (trace (run calm_env ([lit "true"] ++ snowy_cmd :: [lit "false"])))
  = [lit "true"] /\
  exit_code (run calm_env ([lit "true"] ++ snowy_cmd :: [lit "false"])) = 1%Z.
Proof.
  apply (unprintable_command_not_sent calm_env [lit "true"] [lit "false"]
           snowy_cmd);
    reflexivity.
Defined.

(** ** The session *)

Section Discipline.

Variable env : environment.
Variable all_cmds : list str.

Lemma stdout_events_command (reads : list (reply str)) :
  Forall (command_event all_cmds) (stdout_events env reads).
Proof.
  induction reads as [|[line|msg] reads IH].
  - repeat constructor.
  - destruct line; cbn [stdout_events is_empty]; repeat constructor.
    exact IH.
  - repeat constructor.
Qed.

Lemma stderr_events_command (ch : channel) :
  Forall (command_event all_cmds) (stderr_events env ch).
Proof.
  unfold stderr_events. destruct (stderr_text ch) as [err|msg].
  - destruct (is_empty err); [repeat constructor|].
    destruct (printable env _); repeat constructor.
  - repeat constructor.
Qed.

Lemma warning_events_command (cmd : str) (status : Z) :
  Forall (command_event all_cmds) (warning_events cmd status).
Proof.
  unfold warning_events. destruct (_ && _); repeat constructor.
Qed.

Lemma step_events (cmd : str) (w : world) :
  In cmd all_cmds ->
  Forall (command_event all_cmds) (fst (fst (step env cmd w))).
Proof.
  intros Hin. rewrite step_eq, run_command_eq.
  assert (Hexec : forall b, command_event all_cmds
                              (ExecCommand cmd default_timeout b))
    by (intros b; split; [exact Hin | reflexivity]).
  destruct (printable env (announced cmd)); [|constructor].
  destruct (exec_reply env (exec_calls w) cmd) as [ch|msg].
  - destruct (stdout_failure (stdout_reads ch)).
    + cbn [fst]. constructor; [exact I|]. constructor; [apply Hexec|].
      apply stdout_events_command.
    + assert (Hall : Forall (command_event all_cmds)
                       (Print (announced cmd)
                          :: ExecCommand cmd default_timeout true
                          :: stdout_events env (stdout_reads ch)
                          ++ stderr_events env ch
                          ++ [RecvExitStatus (exit_status ch)])).
      { constructor; [exact I|]. constructor; [apply Hexec|].
        apply Forall_app. split; [apply stdout_events_command|].
        apply Forall_app. split; [apply stderr_events_command|].
        repeat constructor. }
      destruct (exit_status ch) as [status|msg]; cbn [fst].
      * apply Forall_app. split; [exact Hall | apply warning_events_command].
      * exact Hall.
  - cbn [fst]. constructor; [exact I|]. constructor; [apply Hexec|].
    constructor.
Qed.

Lemma loop_events (cmds : list str) (w : world) :
  incl cmds all_cmds ->
  Forall (command_event all_cmds) (fst (fst (for_each cmds (step env) w))).
Proof.
  revert w. induction cmds as [|cmd cmds IH]; intros w Hincl.
  - constructor.
  - cbn [for_each]. unfold bind.
    pose proof (step_events cmd w (Hincl cmd (or_introl eq_refl))) as Hs.
    destruct (step env cmd w) as [[t1 w1] [[]|e]]; [|exact Hs].
    assert (Hincl' : incl cmds all_cmds)
      by (intros c Hc; apply Hincl; right; exact Hc).
    pose proof (IH w1 Hincl') as Hr.
    destruct (for_each cmds (step env) w1) as [[t2 w2] r].
    cbn [fst] in *. apply Forall_app. split; assumption.
Qed.

Lemma transport_command (t : list event) :
  Forall (command_event all_cmds) t ->
  Forall (command_event all_cmds) (transport t).
Proof.
  induction 1 as [|e t He Ht IH]; [constructor|].
  unfold transport. cbn [filter].
  destruct (is_transport e); [constructor; assumption | exact IH].
Qed.

End Discipline.

(** X10. In every run [connect] is called once, first, and [close] once,
    last; every call of [exec_command] lies between them, is made with a
    command of the list and carries the timeout of 300 seconds. No command
    is sent on a session that [connect] did not return, none after
    [close], and the connection is never retried. *)
Theorem session_discipline (env : environment) (cmds : list str) :
  exists middle,
    transport (trace (run env cmds)) =
    Connect HOST USER 30 (connect_reply env) :: middle ++ [Close] /\
    Forall (command_event cmds) middle /\
    (forall msg, connect_reply env = Fails msg -> middle = []).
Proof.
  destruct (connect_reply env) as [[]|msg] eqn:Hc.
  - destruct (for_each cmds (step env) (connected initial_world))
      as [[t w'] r] eqn:Hl.
    destruct (run_connected_view env _ _ _ _ Hc Hl) as [_ [Ht _]].
    exists (transport t). split; [exact Ht|]. split.
    + apply transport_command.
      pose proof (loop_events env cmds cmds (connected initial_world)
                    (incl_refl cmds)) as H.
      rewrite Hl in H. exact H.
    + intros msg H. discriminate H.
  - destruct (run_connect_fails_view env cmds msg Hc) as [_ [Ht _]].
    exists []. split; [exact Ht|]. split; [constructor|]. reflexivity.
Qed.

Lemma session_discipline_witness :
  exists middle,
    transport (trace (run unreachable_env commands)) =
    Connect HOST USER 30 (Fails (lit "timed out")) :: middle ++ [Close] /\
    middle = [].
Proof.
  destruct (session_discipline unreachable_env commands)
    as [middle [Ht [_ Hm]]].
  exists middle. split; [exact Ht|].
  apply (Hm (lit "timed out")). reflexivity.
Defined.

(** ** The status in the warning *)

Lemma str_of_uint_head (d : Decimal.uint) (s : str) :
  str_of_uint d <> minus_sign :: s.
Proof. destruct d; discriminate. Qed.

Lemma str_of_uint_inj (d d' : Decimal.uint) :
  str_of_uint d = str_of_uint d' -> d = d'.
Proof.
  revert d'. induction d; intros d' H; destruct d'; try discriminate H;
    try reflexivity; injection H as H; f_equal; apply IHd; exact H.
Qed.

Lemma str_of_int_inj (z z' : Z) : str_of_int z = str_of_int z' -> z = z'.
Proof.
  unfold str_of_int. intros H. apply DecimalZ.to_int_inj.
  destruct (Z.to_int z) as [d|d], (Z.to_int z') as [d'|d'].
  - f_equal. apply str_of_uint_inj. exact H.
  - exfalso. exact (str_of_uint_head _ _ H).
  - exfalso. exact (str_of_uint_head _ _ (eq_sym H)).
  - injection H as H. f_equal. apply str_of_uint_inj. exact H.
Qed.

(** X11. The warning line tells the exit status: two statuses are warned
    about with the same line only if they are the same status (negative
    statuses included, which the transport gives when the server sent
    none). *)
Theorem warning_tells_status (status status' : Z) :
  warning_line status = warning_line status' -> status = status'.
Proof.
  unfold warning_line, warning. intros H.
  apply app_inv_tail in H. apply app_inv_head in H. apply app_inv_head in H.
  apply str_of_int_inj. exact H.
Qed.

Lemma warning_tells_status_witness :
  (-1)%Z = (-1)%Z.
Proof.
  apply (warning_tells_status (-1) (-1)). reflexivity.
Defined.
